(** * collage-mix: the image processor and the manual crop box

    A shallow embedding of the pixel-level part of the collage tool
    (hooks/useImageProcessor, the crop-box interaction of ImageCropper and
    the error handling of services/geminiService).

    Conventions of the embedding.
    - A JavaScript [number] is an exact rational ([Q]); rounding of doubles,
      NaN and the infinities are not represented, so a statement that rests
      on a quotient carries the hypothesis that its divisor is positive.
    - A thrown exception or rejected promise is the [Throw] case of [Result].
    - [console] output is diagnostic only and is not part of the model. *)

From Stdlib Require Import ZArith QArith Qround Qabs Qminmax List String Ascii Bool Lia.
From Stdlib Require Import Permutation.
From Stdlib Require Import Reals Qreals Psatz.
Import ListNotations.
Open Scope Q_scope.

(** ** JavaScript numbers *)

Module JS.

Definition ltb (a b : Q) : bool := negb (Qle_bool b a).
Definition leb (a b : Q) : bool := Qle_bool a b.
Definition gtb (a b : Q) : bool := ltb b a.

Lemma ltb_lt a b : ltb a b = true <-> a < b.
Proof.
  unfold ltb. rewrite negb_true_iff, <- not_true_iff_false, Qle_bool_iff.
  split; [apply Qnot_le_lt | apply Qlt_not_le].
Qed.

Lemma ltb_ge a b : ltb a b = false <-> b <= a.
Proof.
  unfold ltb. rewrite negb_false_iff. apply Qle_bool_iff.
Qed.

Lemma leb_le a b : leb a b = true <-> a <= b.
Proof. apply Qle_bool_iff. Qed.

Lemma leb_gt a b : leb a b = false <-> b < a.
Proof.
  unfold leb. rewrite <- not_true_iff_false, Qle_bool_iff.
  split; [apply Qnot_le_lt | apply Qlt_not_le].
Qed.

Lemma Q2R_inject (z : Z) : Q2R (inject_Z z) = IZR z.
Proof. unfold Q2R, inject_Z. cbn. field. Qed.

(** [s.includes(sub)] *)
Definition includes (s sub : string) : bool :=
  match String.index 0 sub s with Some _ => true | None => false end.

End JS.

(** ** The manual crop box (ImageCropper) *)

Module Cropper.

Record Box := mkBox { x : Q; y : Q; width : Q; height : Q }.

Record Size := mkSize { sz_width : Q; sz_height : Q }.

(** [interactionRef.current] *)
Record Interaction := mkInteraction {
  type : string; startX : Q; startY : Q; startBox : Box }.

(** The box after the handle offsets, before clamping. *)
Definition dragBox (type : string) (startBox : Box) (deltaX deltaY : Q) : Box :=
  let newBox := startBox in
  if String.eqb type "move" then
    mkBox (x startBox + deltaX) (y startBox + deltaY) (width newBox) (height newBox)
  else
    let newBox :=
      if JS.includes type "l"
      then mkBox (x startBox + deltaX) (y newBox) (width startBox - deltaX) (height newBox)
      else newBox in
    let newBox :=
      if JS.includes type "r"
      then mkBox (x newBox) (y newBox) (width startBox + deltaX) (height newBox)
      else newBox in
    let newBox :=
      if JS.includes type "t"
      then mkBox (x newBox) (y startBox + deltaY) (width newBox) (height startBox - deltaY)
      else newBox in
    if JS.includes type "b"
    then mkBox (x newBox) (y newBox) (width newBox) (height startBox + deltaY)
    else newBox.

(** The "Clamp values" block. *)
Definition clampBox (imageSize : Size) (newBox : Box) : Box :=
  let newBox :=
    if JS.ltb (width newBox) 0
    then mkBox (x newBox + width newBox) (y newBox) (Qabs (width newBox)) (height newBox)
    else newBox in
  let newBox :=
    if JS.ltb (height newBox) 0
    then mkBox (x newBox) (y newBox + height newBox) (width newBox) (Qabs (height newBox))
    else newBox in
  let newBox :=
    mkBox (Qmax 0 (Qmin (x newBox) (sz_width imageSize - width newBox)))
          (y newBox) (width newBox) (height newBox) in
  let newBox :=
    mkBox (x newBox)
          (Qmax 0 (Qmin (y newBox) (sz_height imageSize - height newBox)))
          (width newBox) (height newBox) in
  let newBox :=
    mkBox (x newBox) (y newBox)
          (Qmin (width newBox) (sz_width imageSize - x newBox)) (height newBox) in
  mkBox (x newBox) (y newBox) (width newBox)
        (Qmin (height newBox) (sz_height imageSize - y newBox)).

(** [handleInteractionMove]: [None] when the handler returns early, otherwise
    the box given to [setCropBox].  [mounted] stands for [containerRef.current],
    [rect] for [imageRef.current.getBoundingClientRect()] when the image
    element is mounted. *)
Definition handleInteractionMove
    (interaction : option Interaction) (mounted : bool) (rect : option Size)
    (imageSize : Size) (currentX currentY : Q) : option Box :=
  match interaction, mounted, rect with
  | Some it, true, Some rect =>
      let dx := currentX - startX it in
      let dy := currentY - startY it in
      let scaleX := sz_width imageSize / sz_width rect in
      let scaleY := sz_height imageSize / sz_height rect in
      let deltaX := dx * scaleX in
      let deltaY := dy * scaleY in
      Some (clampBox imageSize (dragBox (type it) (startBox it) deltaX deltaY))
  | _, _, _ => None
  end.

(** A box lies within an image of the given size. *)
Definition within (imageSize : Size) (b : Box) : Prop :=
  0 <= x b /\ 0 <= y b /\ 0 <= width b /\ 0 <= height b /\
  x b + width b <= sz_width imageSize /\
  y b + height b <= sz_height imageSize.

Lemma clamp_axis (W p0 e0 : Q) :
  0 <= W ->
  let p1 := if JS.ltb e0 0 then p0 + e0 else p0 in
  let e1 := if JS.ltb e0 0 then Qabs e0 else e0 in
  let p := Qmax 0 (Qmin p1 (W - e1)) in
  let e := Qmin e1 (W - p) in
  0 <= p /\ 0 <= e /\ p + e <= W.
Proof.
  intros HW p1 e1 p e.
  assert (He1 : 0 <= e1).
  { unfold e1. destruct (JS.ltb e0 0) eqn:E.
    - apply Qabs_nonneg.
    - now apply JS.ltb_ge. }
  assert (Hp0 : 0 <= p) by apply Q.le_max_l.
  assert (HpW : p <= W).
  { unfold p. apply Q.max_lub; [exact HW|].
    eapply Qle_trans; [apply Q.le_min_r|]. lra. }
  assert (HeW : e <= W - p) by apply Q.le_min_r.
  repeat split; try assumption.
  - unfold e. apply Q.min_glb; lra.
  - lra.
Qed.

Lemma clampBox_within imageSize b :
  0 <= sz_width imageSize -> 0 <= sz_height imageSize ->
  within imageSize (clampBox imageSize b).
Proof.
  intros HW HH.
  pose proof (clamp_axis (sz_width imageSize) (x b) (width b) HW) as HX.
  pose proof (clamp_axis (sz_height imageSize) (y b) (height b) HH) as HY.
  unfold within, clampBox. cbv zeta in HX, HY.
  destruct (JS.ltb (width b) 0); cbn [x y width height];
    destruct (JS.ltb (height b) 0); cbn [x y width height]; intuition.
Qed.

(** C4: during a move or resize interaction that starts from a crop box lying
    within the image, whatever the pointer displacement and whichever handle
    is dragged, the box handed to [setCropBox] satisfies 0 <= x, 0 <= y,
    width >= 0, height >= 0, x + width <= image width and
    y + height <= image height.  (The displayed image has a positive size,
    so that the display-to-image scale is defined.) *)
Theorem handleInteractionMove_within
    (it : Interaction) (rect imageSize : Size) (currentX currentY : Q) :
  within imageSize (startBox it) ->
  0 < sz_width rect -> 0 < sz_height rect ->
  exists newBox,
    handleInteractionMove (Some it) true (Some rect) imageSize currentX currentY
      = Some newBox /\
    within imageSize newBox.
Proof.
  intros (Hx & Hy & Hw & Hh & HxW & HyH) _ _.
  unfold handleInteractionMove. eexists. split; [reflexivity|].
  apply clampBox_within; lra.
Qed.

(** Dragging the top-left handle of the box (10,10,50,50) of a 100x100 image,
    shown at half size, by (100,-30) display pixels. *)
Lemma handleInteractionMove_within_witness :
  let it := mkInteraction "tl" 20 20 (mkBox 10 10 50 50) in
  let rect := mkSize 50 50 in
  let imageSize := mkSize 100 100 in
  within imageSize (startBox it) /\
  exists newBox,
    handleInteractionMove (Some it) true (Some rect) imageSize 120 (-10)
      = Some newBox /\
    within imageSize newBox.
Proof.
  cbv zeta.
  assert (H : within (mkSize 100 100) (mkBox 10 10 50 50)).
  { unfold within; cbn; repeat split; lra. }
  split; [exact H|].
  apply (handleInteractionMove_within
           (mkInteraction "tl" 20 20 (mkBox 10 10 50 50))
           (mkSize 50 50) (mkSize 100 100) 120 (-10) H);
    reflexivity.
Defined.

(** *** Further facts about the crop box *)

(** Two boxes with equal coordinates. *)
Definition sameBox (b1 b2 : Box) : Prop :=
  x b1 == x b2 /\ y b1 == y b2 /\ width b1 == width b2 /\ height b1 == height b2.

Lemma within_sameBox imageSize b1 b2 :
  sameBox b1 b2 -> within imageSize b2 -> within imageSize b1.
Proof.
  intros (Ex & Ey & Ew & Eh) (Hx & Hy & Hw & Hh & HxW & HyH).
  unfold within. rewrite Ex, Ey, Ew, Eh. repeat split; assumption.
Qed.

(** A box that lies within the image is left as it is by the clamp. *)
Lemma clampBox_fixed imageSize b :
  within imageSize b -> sameBox (clampBox imageSize b) b.
Proof.
  intros (Hx & Hy & Hw & Hh & HxW & HyH). unfold clampBox.
  replace (JS.ltb (width b) 0) with false by (symmetry; now apply JS.ltb_ge).
  replace (JS.ltb (height b) 0) with false by (symmetry; now apply JS.ltb_ge).
  cbn [x y width height].
  assert (Ex : Qmax 0 (Qmin (x b) (sz_width imageSize - width b)) == x b).
  { rewrite Q.min_l by lra. now apply Q.max_r. }
  assert (Ey : Qmax 0 (Qmin (y b) (sz_height imageSize - height b)) == y b).
  { rewrite Q.min_l by lra. now apply Q.max_r. }
  unfold sameBox. cbn [x y width height].
  split; [exact Ex|]. split; [exact Ey|].
  split; apply Q.min_l; lra.
Qed.

Lemma dragBox_still (type : string) (b : Box) (deltaX deltaY : Q) :
  deltaX == 0 -> deltaY == 0 -> sameBox (dragBox type b deltaX deltaY) b.
Proof.
  intros EX EY. unfold dragBox, sameBox.
  destruct (String.eqb type "move"); cbn [x y width height].
  - repeat split; lra.
  - destruct (JS.includes type "l"); cbn [x y width height];
      destruct (JS.includes type "r"); cbn [x y width height];
      destruct (JS.includes type "t"); cbn [x y width height];
      destruct (JS.includes type "b"); cbn [x y width height];
      repeat split; lra.
Qed.

(** Pressing a handle, or the box itself, without moving the pointer leaves
    a crop box that lies within the image where it is. *)
Theorem handleInteractionMove_still
    (it : Interaction) (rect imageSize : Size) :
  within imageSize (startBox it) ->
  0 < sz_width rect -> 0 < sz_height rect ->
  exists newBox,
    handleInteractionMove (Some it) true (Some rect) imageSize (startX it) (startY it)
      = Some newBox /\
    sameBox newBox (startBox it).
Proof.
  intros Hin _ _. unfold handleInteractionMove. eexists. split; [reflexivity|].
  set (deltaX := (startX it - startX it) * (sz_width imageSize / sz_width rect)).
  set (deltaY := (startY it - startY it) * (sz_height imageSize / sz_height rect)).
  assert (EX : deltaX == 0) by (unfold deltaX; ring).
  assert (EY : deltaY == 0) by (unfold deltaY; ring).
  pose proof (dragBox_still (type it) (startBox it) deltaX deltaY EX EY) as Hdrag.
  pose proof (clampBox_fixed imageSize _ (within_sameBox imageSize _ _ Hdrag Hin)) as Hclamp.
  destruct Hdrag as (? & ? & ? & ?), Hclamp as (? & ? & ? & ?).
  unfold sameBox. repeat split; etransitivity; eassumption.
Qed.

Lemma handleInteractionMove_still_witness :
  let it := mkInteraction "br" 20 20 (mkBox 10 10 50 50) in
  exists newBox,
    handleInteractionMove (Some it) true (Some (mkSize 50 50)) (mkSize 100 100) 20 20
      = Some newBox /\
    sameBox newBox (mkBox 10 10 50 50).
Proof.
  cbv zeta.
  apply (handleInteractionMove_still
           (mkInteraction "br" 20 20 (mkBox 10 10 50 50)) (mkSize 50 50) (mkSize 100 100));
    [unfold within; cbn; repeat split; lra | reflexivity | reflexivity].
Defined.

(** Moving a crop box that lies within the image never resizes it: the box
    keeps its width and height and is placed at the displaced position,
    kept between 0 and the last position at which it still fits. *)
Theorem handleInteractionMove_move
    (it : Interaction) (rect imageSize : Size) (currentX currentY : Q) :
  type it = "move"%string ->
  within imageSize (startBox it) ->
  0 < sz_width rect -> 0 < sz_height rect ->
  exists newBox,
    handleInteractionMove (Some it) true (Some rect) imageSize currentX currentY
      = Some newBox /\
    width newBox == width (startBox it) /\
    height newBox == height (startBox it) /\
    x newBox ==
      Qmax 0 (Qmin (x (startBox it)
                    + (currentX - startX it) * (sz_width imageSize / sz_width rect))
                   (sz_width imageSize - width (startBox it))) /\
    y newBox ==
      Qmax 0 (Qmin (y (startBox it)
                    + (currentY - startY it) * (sz_height imageSize / sz_height rect))
                   (sz_height imageSize - height (startBox it))).
Proof.
  intros Htype (Hx & Hy & Hw & Hh & HxW & HyH) _ _.
  unfold handleInteractionMove. eexists. split; [reflexivity|].
  unfold dragBox. rewrite Htype. cbn [String.eqb Ascii.eqb Bool.eqb].
  unfold clampBox. cbn [x y width height].
  replace (JS.ltb (width (startBox it)) 0) with false by (symmetry; now apply JS.ltb_ge).
  cbn [x y width height].
  replace (JS.ltb (height (startBox it)) 0) with false by (symmetry; now apply JS.ltb_ge).
  cbn [x y width height].
  set (nx := Qmax 0 (Qmin _ (sz_width imageSize - width (startBox it)))).
  set (ny := Qmax 0 (Qmin _ (sz_height imageSize - height (startBox it)))).
  assert (Hnx : nx <= sz_width imageSize - width (startBox it)).
  { unfold nx. apply Q.max_lub; [lra | apply Q.le_min_r]. }
  assert (Hny : ny <= sz_height imageSize - height (startBox it)).
  { unfold ny. apply Q.max_lub; [lra | apply Q.le_min_r]. }
  split; [apply Q.min_l; lra|]. split; [apply Q.min_l; lra|].
  split; reflexivity.
Qed.

Lemma handleInteractionMove_move_witness :
  exists newBox,
    handleInteractionMove (Some (mkInteraction "move" 20 20 (mkBox 10 10 50 50))) true
      (Some (mkSize 50 50)) (mkSize 100 100) 120 15 = Some newBox /\
    width newBox == 50 /\ height newBox == 50.
Proof.
  destruct (handleInteractionMove_move
              (mkInteraction "move" 20 20 (mkBox 10 10 50 50))
              (mkSize 50 50) (mkSize 100 100) 120 15 eq_refl)
    as (newBox & Hmove & Hw & Hh & _).
  - unfold within; cbn; repeat split; lra.
  - reflexivity.
  - reflexivity.
  - exists newBox. repeat split; assumption.
Defined.

(** Clamping twice is clamping once. *)
Theorem clampBox_idempotent imageSize b :
  0 <= sz_width imageSize -> 0 <= sz_height imageSize ->
  sameBox (clampBox imageSize (clampBox imageSize b)) (clampBox imageSize b).
Proof.
  intros HW HH. apply clampBox_fixed, clampBox_within; assumption.
Qed.

Lemma clampBox_idempotent_witness :
  sameBox (clampBox (mkSize 100 100) (clampBox (mkSize 100 100) (mkBox 210 (-50) (-150) 110)))
          (clampBox (mkSize 100 100) (mkBox 210 (-50) (-150) 110)).
Proof.
  apply (clampBox_idempotent (mkSize 100 100) (mkBox 210 (-50) (-150) 110)); cbn; lra.
Defined.

End Cropper.

(** ** Results of fallible operations *)

Inductive Error :=
| ContextError (message : string)   (* [throw new Error(...)] of the processor *)
| LoadError                         (* [img.onerror]: the promise of [loadImage] rejects *)
| TypeError                         (* a property read on [undefined] *)
| ApiError (message : string).      (* an error raised by the generative service *)

Inductive Result (A : Type) :=
| Ok (value : A)
| Throw (error : Error).

Arguments Ok {A} value.
Arguments Throw {A} error.

Definition bind {A B : Type} (m : Result A) (k : A -> Result B) : Result B :=
  match m with
  | Ok a => k a
  | Throw e => Throw e
  end.

Notation "'let*' a ':=' m 'in' k" := (bind m (fun a => k))
  (at level 10, a name, m at level 100, k at level 200).

(** ** Decoded images *)

Module Bitmap.

Record Pixel := mkPixel { red : Z; green : Z; blue : Z; alpha : Z }.

Definition transparent : Pixel := mkPixel 0 0 0 0.

(** A decoded image, laid out as [ImageData]: [data] holds four bytes
    (R, G, B, A) per pixel, rows first. *)
Record Image := mkImage { width : Z; height : Z; data : list Z }.

(** [data[i]] *)
Definition byteAt (data : list Z) (i : Z) : Z :=
  if (i <? 0)%Z then 0%Z else nth (Z.to_nat i) data 0%Z.

Definition inside (w h x y : Z) : bool :=
  ((0 <=? x) && (x <? w) && (0 <=? y) && (y <? h))%Z.

Definition pixel (img : Image) (x y : Z) : Pixel :=
  if inside (width img) (height img) x y then
    let i := ((y * width img + x) * 4)%Z in
    mkPixel (byteAt (data img) i) (byteAt (data img) (i + 1))
            (byteAt (data img) (i + 2)) (byteAt (data img) (i + 3))
  else transparent.

Definition channels (p : Pixel) : list Z := [red p; green p; blue p; alpha p].

(** Same size and the same pixel at every position. *)
Definition same (i1 i2 : Image) : Prop :=
  width i1 = width i2 /\ height i1 = height i2 /\
  forall x y, (0 <= x < width i2)%Z -> (0 <= y < height i2)%Z ->
    pixel i1 x y = pixel i2 x y.

(** The dimensions of a decoded image: positive, and within what a canvas
    can be given. *)
Definition valid (img : Image) : Prop :=
  (0 < width img <= 2147483647)%Z /\ (0 < height img <= 2147483647)%Z.

End Bitmap.

(** ** The 2D canvas

    The part of the platform the processor draws with.  A canvas keeps what
    was painted on it as a list of layers; which paints reach a pixel is
    decided at the centre of the pixel.  How the paints of one pixel are
    resampled and blended into a colour is left to the platform
    ([composite] below). *)

Module Canvas.

(** The current transformation: [(u,v)] is sent to [(a*u + e, d*v + f)].
    The processor only ever translates and scales. *)
Record Transform := mkTransform { t_a : Q; t_d : Q; t_e : Q; t_f : Q }.

Definition identity : Transform := mkTransform 1 1 0 0.

Inductive Layer :=
| FillRect (fillStyle : string) (T : Transform) (x y w h : Q)
| DrawImage (source : Bitmap.Image) (T : Transform) (sx sy sw sh dx dy dw dh : Q).

Record Canvas := mkCanvas {
  width : Z;
  height : Z;
  fillStyle : string;
  transform : Transform;
  layers : list Layer        (* the most recent first *)
}.

(** Conversion of a number to the [unsigned long] of [canvas.width]:
    truncation towards zero, modulo 2^32; a value above 2^31 - 1 makes the
    attribute fall back to its default. *)
Definition truncate (v : Q) : Z :=
  if JS.ltb v 0 then Qceiling v else Qfloor v.

Definition dimension (default : Z) (v : Q) : Z :=
  let n := (truncate v mod 4294967296)%Z in
  if (n <=? 2147483647)%Z then n else default.

(** [document.createElement('canvas')] *)
Definition createElement : Canvas := mkCanvas 300 150 "#000000" identity [].

(** [canvas.width = v] and [canvas.height = v]; either clears the canvas and
    resets its drawing state. *)
Definition setWidth (v : Q) (c : Canvas) : Canvas :=
  mkCanvas (dimension 300 v) (height c) "#000000" identity [].

Definition setHeight (v : Q) (c : Canvas) : Canvas :=
  mkCanvas (width c) (dimension 150 v) "#000000" identity [].

(** [ctx.fillStyle = s]: a string that is no CSS colour is ignored. *)
Definition setFillStyle (cssColor : string -> bool) (s : string) (c : Canvas) : Canvas :=
  if cssColor s
  then mkCanvas (width c) (height c) s (transform c) (layers c)
  else c.

Definition paint (l : Layer) (c : Canvas) : Canvas :=
  mkCanvas (width c) (height c) (fillStyle c) (transform c) (l :: layers c).

Definition fillRect (x y w h : Q) (c : Canvas) : Canvas :=
  paint (FillRect (fillStyle c) (transform c) x y w h) c.

(** [ctx.translate(tx, ty)] and [ctx.scale(sx, sy)] *)
Definition translate (tx ty : Q) (c : Canvas) : Canvas :=
  let T := transform c in
  mkCanvas (width c) (height c) (fillStyle c)
    (mkTransform (t_a T) (t_d T) (t_e T + t_a T * tx) (t_f T + t_d T * ty))
    (layers c).

Definition scale (sx sy : Q) (c : Canvas) : Canvas :=
  let T := transform c in
  mkCanvas (width c) (height c) (fillStyle c)
    (mkTransform (t_a T * sx) (t_d T * sy) (t_e T) (t_f T))
    (layers c).

(** The three forms of [ctx.drawImage]. *)
Definition drawImage9 (img : Bitmap.Image) (sx sy sw sh dx dy dw dh : Q) (c : Canvas) : Canvas :=
  paint (DrawImage img (transform c) sx sy sw sh dx dy dw dh) c.

Definition drawImage5 (img : Bitmap.Image) (dx dy dw dh : Q) (c : Canvas) : Canvas :=
  drawImage9 img 0 0 (inject_Z (Bitmap.width img)) (inject_Z (Bitmap.height img))
             dx dy dw dh c.

Definition drawImage3 (img : Bitmap.Image) (dx dy : Q) (c : Canvas) : Canvas :=
  drawImage5 img dx dy (inject_Z (Bitmap.width img)) (inject_Z (Bitmap.height img)) c.

(** What a layer puts on a pixel. *)
Inductive Paint :=
| PaintFill (fillStyle : string)
| PaintImage (source : Bitmap.Image) (u v : Q).   (* the source, at its point (u,v) *)

(** [lo <= p < lo + len] *)
Definition spans (lo len p : Q) : bool := JS.leb lo p && JS.ltb p (lo + len).

(** The centre of pixel [X], taken back through the transformation. *)
Definition unmap (a e : Q) (X : Z) : Q := (inject_Z X + (1#2) - e) / a.

Definition layerPaint (l : Layer) (X Y : Z) : option Paint :=
  match l with
  | FillRect s T x y w h =>
      let u := unmap (t_a T) (t_e T) X in
      let v := unmap (t_d T) (t_f T) Y in
      if spans x w u && spans y h v then Some (PaintFill s) else None
  | DrawImage img T sx sy sw sh dx dy dw dh =>
      let u := unmap (t_a T) (t_e T) X in
      let v := unmap (t_d T) (t_f T) Y in
      if spans dx dw u && spans dy dh v
      then Some (PaintImage img (sx + (u - dx) * sw / dw) (sy + (v - dy) * sh / dh))
      else None
  end.

(** The paints on pixel [(X,Y)], the topmost first. *)
Definition paintsAt (c : Canvas) (X Y : Z) : list Paint :=
  if Bitmap.inside (width c) (height c) X Y
  then flat_map (fun l => match layerPaint l X Y with Some p => [p] | None => [] end)
                (layers c)
  else [].

(** [0, 1, ..., n-1] *)
Definition range (n : Z) : list Z := map Z.of_nat (seq 0 (Z.to_nat n)).

Section Rendering.

(** The colour the platform gives a pixel with these paints on it. *)
Variable composite : list Paint -> Bitmap.Pixel.

Definition pixelAt (c : Canvas) (X Y : Z) : Bitmap.Pixel := composite (paintsAt c X Y).

(** [ctx.getImageData(0, 0, canvas.width, canvas.height).data] *)
Definition getImageData (c : Canvas) : list Z :=
  flat_map (fun i => Bitmap.channels (pixelAt c (i mod width c) (i / width c))%Z)
           (range (width c * height c)).

(** The bitmap of the canvas: what [toDataURL] encodes and what [drawImage]
    reads when the canvas is its source. *)
Definition bitmap (c : Canvas) : Bitmap.Image :=
  Bitmap.mkImage (width c) (height c) (getImageData c).

(** The platform composites exactly where nothing has to be resampled or
    blended: an untouched pixel is transparent, and a single image paint
    taken at the centre of a source pixel is that pixel. *)
Definition lossless : Prop :=
  composite [] = Bitmap.transparent /\
  forall img x y u v,
    u == inject_Z x + (1#2) -> v == inject_Z y + (1#2) ->
    composite [PaintImage img u v] = Bitmap.pixel img x y.

(** *** Facts about the canvas *)

Lemma truncate_inject (n : Z) : truncate (inject_Z n) = n.
Proof.
  unfold truncate. destruct (JS.ltb (inject_Z n) 0); [apply Qceiling_Z | apply Qfloor_Z].
Qed.

Lemma dimension_inject (default n : Z) :
  (0 <= n <= 2147483647)%Z -> dimension default (inject_Z n) = n.
Proof.
  intros Hn. unfold dimension. rewrite truncate_inject.
  rewrite Z.mod_small by lia.
  destruct (n <=? 2147483647)%Z eqn:E; [reflexivity | apply Z.leb_gt in E; lia].
Qed.

Lemma range_length (n : Z) : List.length (range n) = Z.to_nat n.
Proof. unfold range. now rewrite length_map, length_seq. Qed.

Lemma range_nth (n : Z) (i : nat) :
  (i < Z.to_nat n)%nat -> nth i (range n) 0%Z = Z.of_nat i.
Proof.
  intros Hi. unfold range.
  change 0%Z with (Z.of_nat 0). rewrite map_nth, seq_nth by exact Hi. reflexivity.
Qed.

Lemma range_In (n x : Z) : In x (range n) <-> (0 <= x < n)%Z.
Proof.
  unfold range. rewrite in_map_iff. split.
  - intros (i & <- & Hi). apply in_seq in Hi. lia.
  - intros Hx. exists (Z.to_nat x). split; [lia|]. apply in_seq. lia.
Qed.

(** Reading one byte out of a list built four bytes at a time. *)
Lemma nth_quads {A : Type} (f : A -> list Z) (l : list A) (a0 : A) (i k : nat) :
  (forall a, List.length (f a) = 4%nat) -> (i < List.length l)%nat -> (k < 4)%nat ->
  nth (4 * i + k) (flat_map f l) 0%Z = nth k (f (nth i l a0)) 0%Z.
Proof.
  intros Hf. revert i. induction l as [|a l IH]; intros i Hi Hk; [inversion Hi|].
  cbn [flat_map]. destruct i as [|i].
  - replace (4 * 0 + k)%nat with k by lia. cbn [nth]. apply app_nth1. rewrite Hf. exact Hk.
  - rewrite app_nth2 by (rewrite Hf; lia). rewrite Hf.
    replace (4 * S i + k - 4)%nat with (4 * i + k)%nat by lia.
    cbn [nth]. apply IH; [cbn in Hi; lia | exact Hk].
Qed.

Lemma getImageData_byte (c : Canvas) (X Y k : Z) :
  (0 <= X < width c)%Z -> (0 <= Y < height c)%Z -> (0 <= k < 4)%Z ->
  Bitmap.byteAt (getImageData c) ((Y * width c + X) * 4 + k)
  = nth (Z.to_nat k) (Bitmap.channels (pixelAt c X Y)) 0%Z.
Proof.
  intros HX HY Hk. unfold Bitmap.byteAt.
  destruct ((Y * width c + X) * 4 + k <? 0)%Z eqn:E; [apply Z.ltb_lt in E; nia|].
  unfold getImageData.
  replace (Z.to_nat ((Y * width c + X) * 4 + k))
    with (4 * Z.to_nat (Y * width c + X) + Z.to_nat k)%nat by nia.
  assert (Hi : (Z.to_nat (Y * width c + X) < Z.to_nat (width c * height c))%nat) by nia.
  rewrite (nth_quads _ _ 0%Z) by (try reflexivity; try lia; rewrite range_length; exact Hi).
  rewrite range_nth by exact Hi.
  rewrite Z2Nat.id by nia.
  replace ((Y * width c + X) mod width c)%Z with X
    by (rewrite Z.add_comm, Z.mod_add by lia; now rewrite Z.mod_small by lia).
  replace ((Y * width c + X) / width c)%Z with Y
    by (rewrite Z.add_comm, Z.div_add by lia; rewrite Z.div_small by lia; lia).
  reflexivity.
Qed.

(** The bitmap of a canvas holds, at each position, the colour of that pixel. *)
Lemma bitmap_pixel (c : Canvas) (X Y : Z) :
  (0 <= X < width c)%Z -> (0 <= Y < height c)%Z ->
  Bitmap.pixel (bitmap c) X Y = pixelAt c X Y.
Proof.
  intros HX HY. unfold Bitmap.pixel, bitmap. cbn [Bitmap.width Bitmap.height Bitmap.data].
  replace (Bitmap.inside (width c) (height c) X Y) with true
    by (symmetry; unfold Bitmap.inside; repeat (apply andb_true_intro; split); lia).
  cbv zeta.
  pose proof (getImageData_byte c X Y 0 HX HY ltac:(lia)) as H0.
  pose proof (getImageData_byte c X Y 1 HX HY ltac:(lia)) as H1.
  pose proof (getImageData_byte c X Y 2 HX HY ltac:(lia)) as H2.
  pose proof (getImageData_byte c X Y 3 HX HY ltac:(lia)) as H3.
  rewrite Z.add_0_r in H0. rewrite H0, H1, H2, H3.
  destruct (pixelAt c X Y); reflexivity.
Qed.

Lemma inject_nonneg (n : Z) : (0 <= n)%Z -> 0 <= inject_Z n.
Proof. intros H. change 0 with (inject_Z 0). now rewrite <- Zle_Qle. Qed.

Lemma inject_succ_le (n m : Z) : (n < m)%Z -> inject_Z n + 1 <= inject_Z m.
Proof.
  intros H. change 1 with (inject_Z 1). rewrite <- inject_Z_plus, <- Zle_Qle. lia.
Qed.

Lemma spans_true (lo len p : Q) : spans lo len p = true <-> lo <= p /\ p < lo + len.
Proof.
  unfold spans. now rewrite andb_true_iff, JS.leb_le, JS.ltb_lt.
Qed.

Lemma unmap_identity (X : Z) : unmap 1 0 X == inject_Z X + (1#2).
Proof. unfold unmap. field. Qed.

(** After [translate(w, 0)] and [scale(-1, 1)] on a fresh context. *)
Lemma unmap_mirror (w : Q) (X : Z) :
  unmap (1 * -1) (0 + 1 * w) X == w - inject_Z X - (1#2).
Proof. unfold unmap. field. Qed.

Lemma layerPaint_fill (s : string) (T : Transform) (x y w h : Q) (X Y : Z) :
  x <= unmap (t_a T) (t_e T) X /\ unmap (t_a T) (t_e T) X < x + w ->
  y <= unmap (t_d T) (t_f T) Y /\ unmap (t_d T) (t_f T) Y < y + h ->
  layerPaint (FillRect s T x y w h) X Y = Some (PaintFill s).
Proof.
  intros HX HY. cbn [layerPaint].
  apply spans_true in HX, HY. now rewrite HX, HY.
Qed.

Lemma layerPaint_draw (img : Bitmap.Image) (T : Transform)
    (sx sy sw sh dx dy dw dh : Q) (X Y : Z) :
  dx <= unmap (t_a T) (t_e T) X /\ unmap (t_a T) (t_e T) X < dx + dw ->
  dy <= unmap (t_d T) (t_f T) Y /\ unmap (t_d T) (t_f T) Y < dy + dh ->
  layerPaint (DrawImage img T sx sy sw sh dx dy dw dh) X Y
  = Some (PaintImage img
            (sx + (unmap (t_a T) (t_e T) X - dx) * sw / dw)
            (sy + (unmap (t_d T) (t_f T) Y - dy) * sh / dh)).
Proof.
  intros HX HY. cbn [layerPaint].
  apply spans_true in HX, HY. now rewrite HX, HY.
Qed.

Lemma layerPaint_draw_outside (img : Bitmap.Image) (T : Transform)
    (sx sy sw sh dx dy dw dh : Q) (X Y : Z) :
  ~ ((dx <= unmap (t_a T) (t_e T) X /\ unmap (t_a T) (t_e T) X < dx + dw) /\
     (dy <= unmap (t_d T) (t_f T) Y /\ unmap (t_d T) (t_f T) Y < dy + dh)) ->
  layerPaint (DrawImage img T sx sy sw sh dx dy dw dh) X Y = None.
Proof.
  intros H. cbn [layerPaint].
  destruct (spans dx dw (unmap (t_a T) (t_e T) X)) eqn:EX; [|reflexivity].
  destruct (spans dy dh (unmap (t_d T) (t_f T) Y)) eqn:EY; [|reflexivity].
  exfalso. apply H. now rewrite <- !spans_true.
Qed.

Lemma paintsAt_inside (c : Canvas) (X Y : Z) :
  (0 <= X < width c)%Z -> (0 <= Y < height c)%Z ->
  paintsAt c X Y
  = flat_map (fun l => match layerPaint l X Y with Some p => [p] | None => [] end)
             (layers c).
Proof.
  intros HX HY. unfold paintsAt.
  replace (Bitmap.inside (width c) (height c) X Y) with true; [reflexivity|].
  symmetry. unfold Bitmap.inside. repeat (apply andb_true_intro; split); lia.
Qed.

Lemma unmap_still (X : Z) : unmap (1 * 1) (0 + 1 * 0) X == inject_Z X + (1#2).
Proof. unfold unmap. field. Qed.

Lemma inject_mirror (n X : Z) :
  inject_Z (n - 1 - X) + (1#2) == inject_Z n - inject_Z X - (1#2).
Proof.
  unfold Z.sub. rewrite !inject_Z_plus, !inject_Z_opp.
  change (inject_Z 1) with 1. ring.
Qed.

(** The colour of a pixel of a canvas that holds a single drawn image. *)
Lemma pixelAt_single (c : Canvas) (src : Bitmap.Image) (T : Transform)
    (sx sy sw sh dx dy dw dh : Q) (X Y x' y' : Z) :
  lossless ->
  layers c = [DrawImage src T sx sy sw sh dx dy dw dh] ->
  (0 <= X < width c)%Z -> (0 <= Y < height c)%Z ->
  dx <= unmap (t_a T) (t_e T) X /\ unmap (t_a T) (t_e T) X < dx + dw ->
  dy <= unmap (t_d T) (t_f T) Y /\ unmap (t_d T) (t_f T) Y < dy + dh ->
  sx + (unmap (t_a T) (t_e T) X - dx) * sw / dw == inject_Z x' + (1#2) ->
  sy + (unmap (t_d T) (t_f T) Y - dy) * sh / dh == inject_Z y' + (1#2) ->
  pixelAt c X Y = Bitmap.pixel src x' y'.
Proof.
  intros [_ Hexact] Hlayers HX HY HsX HsY Hu Hv.
  unfold pixelAt. rewrite paintsAt_inside by assumption.
  rewrite Hlayers. cbn [flat_map].
  rewrite layerPaint_draw by assumption. cbn [app].
  now apply Hexact.
Qed.

(** A canvas of the size of [img] on which [img] was drawn at the origin
    shows [img]. *)
Lemma pixelAt_copy (c : Canvas) (img : Bitmap.Image) (X Y : Z) :
  lossless ->
  width c = Bitmap.width img -> height c = Bitmap.height img ->
  layers c = [DrawImage img identity
                0 0 (inject_Z (Bitmap.width img)) (inject_Z (Bitmap.height img))
                0 0 (inject_Z (Bitmap.width img)) (inject_Z (Bitmap.height img))] ->
  (0 <= X < width c)%Z -> (0 <= Y < height c)%Z ->
  pixelAt c X Y = Bitmap.pixel img X Y.
Proof.
  intros Hexact Hw Hh Hlayers HX HY.
  pose proof (inject_nonneg X ltac:(lia)).
  pose proof (inject_succ_le X (Bitmap.width img) ltac:(lia)).
  pose proof (inject_nonneg Y ltac:(lia)).
  pose proof (inject_succ_le Y (Bitmap.height img) ltac:(lia)).
  eapply pixelAt_single; try eassumption;
    cbn [identity t_a t_d t_e t_f]; rewrite unmap_identity;
    try (split; lra); field; lra.
Qed.

End Rendering.

End Canvas.

(** ** The image processor (hooks/useImageProcessor) *)

Module Processor.

Record Rgb := mkRgb { r : Z; g : Z; b : Z }.

(** One character of the class [[a-f\d]], case-insensitive, as [parseInt(_, 16)] reads it. *)
Definition hexDigit (ch : ascii) : option Z :=
  let n := Z.of_nat (nat_of_ascii ch) in
  if ((48 <=? n) && (n <=? 57))%Z then Some (n - 48)%Z
  else if ((97 <=? n) && (n <=? 102))%Z then Some (n - 87)%Z
  else if ((65 <=? n) && (n <=? 70))%Z then Some (n - 55)%Z
  else None.

Definition hexPair (hi lo : ascii) : option Z :=
  match hexDigit hi, hexDigit lo with
  | Some h, Some l => Some (16 * h + l)%Z
  | _, _ => None
  end.

(** [/^#?([a-f\d]{2})([a-f\d]{2})([a-f\d]{2})$/i] and the three [parseInt]s. *)
Definition hexToRgb (hex : string) : option Rgb :=
  let digits := match hex with String "#" rest => rest | _ => hex end in
  match digits with
  | String r1 (String r2 (String g1 (String g2 (String b1 (String b2 EmptyString))))) =>
      match hexPair r1 r2, hexPair g1 g2, hexPair b1 b2 with
      | Some r, Some g, Some b => Some (mkRgb r g b)
      | _, _, _ => None
      end
  | _ => None
  end.

Example hexToRgb_white : hexToRgb "#FFFFFF" = Some (mkRgb 255 255 255).
Proof. reflexivity. Qed.

Example hexToRgb_mixed_case : hexToRgb "1a2B3c" = Some (mkRgb 26 43 60).
Proof. reflexivity. Qed.

Example hexToRgb_short : hexToRgb "#fff" = None.
Proof. reflexivity. Qed.

(** Truthiness of a string. *)
Definition truthy (s : string) : bool :=
  match s with EmptyString => false | _ => true end.

(** [Math.sqrt(d2) > tolerance] for an integer [d2 >= 0]: the square root is
    never negative, and above a non-negative tolerance exactly when [d2] is
    above its square. *)
Definition sqrtExceeds (d2 : Z) (tolerance : Q) : bool :=
  JS.ltb tolerance 0 || JS.ltb (tolerance * tolerance) (inject_Z d2).

(** The body of the pixel test of [autoCrop]. *)
Definition isContent (cropColor : option Rgb) (tolerance : Q) (p : Bitmap.Pixel) : bool :=
  match cropColor with
  | Some cropColor =>
      let d2 := ((Bitmap.red p - r cropColor) ^ 2 + (Bitmap.green p - g cropColor) ^ 2
                 + (Bitmap.blue p - b cropColor) ^ 2)%Z in
      sqrtExceeds d2 tolerance && (0 <? Bitmap.alpha p)%Z
  | None => (0 <? Bitmap.alpha p)%Z
  end.

Record Bounds := mkBounds { minX : Z; minY : Z; maxX : Z; maxY : Z }.

(** The pixel [(x,y)] as the scan reads it from [data]. *)
Definition dataPixel (data : list Z) (width x y : Z) : Bitmap.Pixel :=
  let i := ((y * width + x) * 4)%Z in
  Bitmap.mkPixel (Bitmap.byteAt data i) (Bitmap.byteAt data (i + 1))
                 (Bitmap.byteAt data (i + 2)) (Bitmap.byteAt data (i + 3)).

(** One iteration of the inner loop. *)
Definition scanPixel (data : list Z) (width : Z) (cropColor : option Rgb) (tolerance : Q)
    (y : Z) (bd : Bounds) (x : Z) : Bounds :=
  if isContent cropColor tolerance (dataPixel data width x y) then
    let bd := if (x <? minX bd)%Z then mkBounds x (minY bd) (maxX bd) (maxY bd) else bd in
    let bd := if (maxX bd <? x)%Z then mkBounds (minX bd) (minY bd) x (maxY bd) else bd in
    let bd := if (y <? minY bd)%Z then mkBounds (minX bd) y (maxX bd) (maxY bd) else bd in
    if (maxY bd <? y)%Z then mkBounds (minX bd) (minY bd) (maxX bd) y else bd
  else bd.

(** The two nested loops over the canvas. *)
Definition scan (data : list Z) (width height : Z) (cropColor : option Rgb) (tolerance : Q)
    : Bounds :=
  fold_left
    (fun bd y => fold_left (scanPixel data width cropColor tolerance y) (Canvas.range width) bd)
    (Canvas.range height)
    (mkBounds width height (-1) (-1)).

Definition GridState := list (list (option string)).

(** [gridImages[r][c]], reduced to what [if (imgSrc)] lets through: reading a
    row that does not exist throws, any other missing or empty entry is an
    empty cell. *)
Definition cellSource (gridImages : GridState) (r c : nat) : Result (option string) :=
  match nth_error gridImages r with
  | None => Throw TypeError
  | Some row =>
      match nth_error row c with
      | Some (Some imgSrc) => Ok (if truthy imgSrc then Some imgSrc else None)
      | _ => Ok None
      end
  end.

(** [for (let i = 0; i < n; i++) body], with a body that may throw. *)
Fixpoint forEach {S : Type} (indices : list nat) (body : nat -> S -> Result S) (s : S)
    : Result S :=
  match indices with
  | [] => Ok s
  | i :: rest => let* s' := body i s in forEach rest body s'
  end.

(** The loops of [mixImages]: the cells whose image is requested, in the
    order the requests are made. *)
Definition pending (gridImages : GridState) (cols rows : nat)
    : Result (list (string * nat * nat)) :=
  forEach (seq 0 rows)
    (fun r promises =>
       forEach (seq 0 cols)
         (fun c promises =>
            let* imgSrc := cellSource gridImages r c in
            Ok (match imgSrc with
                | Some imgSrc => promises ++ [(imgSrc, r, c)]
                | None => promises
                end))
         promises)
    [].

(** Where cell [(r,c)] goes. *)
Definition cellOrigin (padding cellSize : Q) (index : nat) : Q :=
  padding + inject_Z (Z.of_nat index) * (cellSize + padding).

Section Platform.

(** The platform: the image decoder behind [loadImage] ([None] when
    [onerror] fires), the PNG encoder behind [toDataURL], the compositor,
    whether [getContext('2d')] yields a context, and the CSS colour parser. *)
Variable decode : string -> option Bitmap.Image.
Variable encode : Bitmap.Image -> string.
Variable composite : list Canvas.Paint -> Bitmap.Pixel.
Variable getContext2d : Canvas.Canvas -> bool.
Variable cssColor : string -> bool.

Definition loadImage (src : string) : Result Bitmap.Image :=
  match decode src with
  | Some img => Ok img
  | None => Throw LoadError
  end.

(** [canvas.getContext('2d')] followed by [if (!ctx) throw new Error(message)]. *)
Definition getContext (message : string) (canvas : Canvas.Canvas) : Result Canvas.Canvas :=
  if getContext2d canvas then Ok canvas else Throw (ContextError message).

(** [canvas.toDataURL('image/png')] *)
Definition toDataURL (canvas : Canvas.Canvas) : string :=
  encode (Canvas.bitmap composite canvas).

(** The [then]/[catch] chain of one cell of [mixImages]: the image is drawn
    if it loads, and a failed load is logged and dropped. *)
Definition drawCell (padding cellWidth cellHeight : Q) (canvas : Canvas.Canvas)
    (cell : string * nat * nat) : Canvas.Canvas :=
  let '(imgSrc, r, c) := cell in
  match loadImage imgSrc with
  | Ok img =>
      let dx := cellOrigin padding cellWidth c in
      let dy := cellOrigin padding cellHeight r in
      Canvas.drawImage5 img dx dy cellWidth cellHeight canvas
  | Throw _ => canvas
  end.

(** [mixImages], up to the canvas it encodes.  The pending loads are settled
    in the order they were requested. *)
Definition mixCanvas (gridImages : GridState) (cols rows : nat)
    (finalWidth finalHeight padding : Q) (backgroundColor : string) : Result Canvas.Canvas :=
  let canvas := Canvas.createElement in
  let canvas := Canvas.setWidth finalWidth canvas in
  let canvas := Canvas.setHeight finalHeight canvas in
  let* canvas := getContext "Could not get canvas context" canvas in
  let canvas := Canvas.setFillStyle cssColor backgroundColor canvas in
  let canvas := Canvas.fillRect 0 0 finalWidth finalHeight canvas in
  let totalPaddingX := padding * (inject_Z (Z.of_nat cols) + 1) in
  let totalPaddingY := padding * (inject_Z (Z.of_nat rows) + 1) in
  let contentWidth := finalWidth - totalPaddingX in
  let contentHeight := finalHeight - totalPaddingY in
  if JS.leb contentWidth 0 || JS.leb contentHeight 0 then Ok canvas
  else
    let cellWidth := contentWidth / inject_Z (Z.of_nat cols) in
    let cellHeight := contentHeight / inject_Z (Z.of_nat rows) in
    let* promises := pending gridImages cols rows in
    Ok (fold_left (drawCell padding cellWidth cellHeight) promises canvas).

Definition mixImages (gridImages : GridState) (cols rows : nat)
    (finalWidth finalHeight padding : Q) (backgroundColor : string) : Result string :=
  let* canvas := mixCanvas gridImages cols rows finalWidth finalHeight padding backgroundColor in
  Ok (toDataURL canvas).

(** The canvas [autoCrop] scans: the image drawn at the origin of a canvas
    of its size. *)
Definition sourceCanvas (message : string) (img : Bitmap.Image) : Result Canvas.Canvas :=
  let canvas := Canvas.createElement in
  let canvas := Canvas.setWidth (inject_Z (Bitmap.width img)) canvas in
  let canvas := Canvas.setHeight (inject_Z (Bitmap.height img)) canvas in
  let* canvas := getContext message canvas in
  Ok (Canvas.drawImage3 img 0 0 canvas).

(** [cropColorHex ? hexToRgb(cropColorHex) : null] *)
Definition cropColorOf (cropColorHex : option string) : option Rgb :=
  match cropColorHex with
  | Some hex => if truthy hex then hexToRgb hex else None
  | None => None
  end.

(** [autoCrop], up to what it returns: [None] for the input itself, or the
    crop canvas it encodes.  [tolerance] is [None] when the argument is left
    out. *)
Definition cropCanvas (imageDataUrl : string) (cropColorHex : option string)
    (tolerance : option Q) : Result (option Canvas.Canvas) :=
  let tolerance := match tolerance with Some t => t | None => 20 end in
  let* img := loadImage imageDataUrl in
  let* canvas := sourceCanvas "Could not get canvas context" img in
  let data := Canvas.getImageData composite canvas in
  let cropColor := cropColorOf cropColorHex in
  let bd := scan data (Canvas.width canvas) (Canvas.height canvas) cropColor tolerance in
  if (maxX bd =? -1)%Z then Ok None
  else
    let width := (maxX bd - minX bd + 1)%Z in
    let height := (maxY bd - minY bd + 1)%Z in
    let cropCanvas := Canvas.createElement in
    let cropCanvas := Canvas.setWidth (inject_Z width) cropCanvas in
    let cropCanvas := Canvas.setHeight (inject_Z height) cropCanvas in
    let* cropCanvas := getContext "Could not get crop canvas context" cropCanvas in
    Ok (Some (Canvas.drawImage9 (Canvas.bitmap composite canvas)
                (inject_Z (minX bd)) (inject_Z (minY bd)) (inject_Z width) (inject_Z height)
                0 0 (inject_Z width) (inject_Z height) cropCanvas)).

Definition autoCrop (imageDataUrl : string) (cropColorHex : option string)
    (tolerance : option Q) : Result string :=
  let* result := cropCanvas imageDataUrl cropColorHex tolerance in
  Ok (match result with
      | None => imageDataUrl
      | Some cropCanvas => toDataURL cropCanvas
      end).

(** The canvas size [letterboxImage] aims at, before scaling. *)
Definition letterboxSize (img : Bitmap.Image) (targetAspectRatio : Q) : Q * Q :=
  let canvasWidth := inject_Z (Bitmap.width img) in
  let canvasHeight := inject_Z (Bitmap.height img) in
  let imgRatio := inject_Z (Bitmap.width img) / inject_Z (Bitmap.height img) in
  if JS.gtb imgRatio targetAspectRatio
  then (canvasWidth, inject_Z (Bitmap.width img) / targetAspectRatio)
  else (inject_Z (Bitmap.height img) * targetAspectRatio, canvasHeight).

(** [Math.min(1500 / canvasWidth, 1500 / canvasHeight, 1)] *)
Definition letterboxScale (size : Q * Q) : Q :=
  Qmin (Qmin (1500 / fst size) (1500 / snd size)) 1.

(** [letterboxImage], up to the canvas it encodes; [backgroundColor] is
    [None] when the argument is left out. *)
Definition letterboxCanvas (imageDataUrl : string) (targetAspectRatio : Q)
    (backgroundColor : option string) : Result Canvas.Canvas :=
  let backgroundColor :=
    match backgroundColor with Some s => s | None => "#FFFFFF"%string end in
  let* img := loadImage imageDataUrl in
  let size := letterboxSize img targetAspectRatio in
  let canvas := Canvas.createElement in
  let scale := letterboxScale size in
  let canvas := Canvas.setWidth (fst size * scale) canvas in
  let canvas := Canvas.setHeight (snd size * scale) canvas in
  let* canvas := getContext "Could not get canvas context" canvas in
  let canvas := Canvas.setFillStyle cssColor backgroundColor canvas in
  let canvas :=
    Canvas.fillRect 0 0 (inject_Z (Canvas.width canvas)) (inject_Z (Canvas.height canvas))
                    canvas in
  let scaledImgWidth := inject_Z (Bitmap.width img) * scale in
  let scaledImgHeight := inject_Z (Bitmap.height img) * scale in
  let offsetX := (inject_Z (Canvas.width canvas) - scaledImgWidth) / 2 in
  let offsetY := (inject_Z (Canvas.height canvas) - scaledImgHeight) / 2 in
  Ok (Canvas.drawImage5 img offsetX offsetY scaledImgWidth scaledImgHeight canvas).

Definition letterboxImage (imageDataUrl : string) (targetAspectRatio : Q)
    (backgroundColor : option string) : Result string :=
  let* canvas := letterboxCanvas imageDataUrl targetAspectRatio backgroundColor in
  Ok (toDataURL canvas).

Inductive Direction := horizontal | vertical.

(** [flipImage], up to the canvas it encodes. *)
Definition flipCanvas (imageDataUrl : string) (direction : Direction) : Result Canvas.Canvas :=
  let* img := loadImage imageDataUrl in
  let canvas := Canvas.createElement in
  let canvas := Canvas.setWidth (inject_Z (Bitmap.width img)) canvas in
  let canvas := Canvas.setHeight (inject_Z (Bitmap.height img)) canvas in
  let* canvas := getContext "Could not get canvas context" canvas in
  let canvas :=
    match direction with
    | horizontal =>
        Canvas.scale (-1) 1 (Canvas.translate (inject_Z (Canvas.width canvas)) 0 canvas)
    | vertical =>
        Canvas.scale 1 (-1) (Canvas.translate 0 (inject_Z (Canvas.height canvas)) canvas)
    end in
  Ok (Canvas.drawImage3 img 0 0 canvas).

Definition flipImage (imageDataUrl : string) (direction : Direction) : Result string :=
  let* canvas := flipCanvas imageDataUrl direction in
  Ok (toDataURL canvas).

(** [manualCrop], up to the canvas it encodes. *)
Definition manualCropCanvas (imageDataUrl : string) (cropBox : Cropper.Box)
    : Result Canvas.Canvas :=
  let* img := loadImage imageDataUrl in
  let canvas := Canvas.createElement in
  let canvas := Canvas.setWidth (Cropper.width cropBox) canvas in
  let canvas := Canvas.setHeight (Cropper.height cropBox) canvas in
  let* canvas := getContext "Could not get canvas context" canvas in
  Ok (Canvas.drawImage9 img (Cropper.x cropBox) (Cropper.y cropBox)
        (Cropper.width cropBox) (Cropper.height cropBox)
        0 0 (Cropper.width cropBox) (Cropper.height cropBox) canvas).

Definition manualCrop (imageDataUrl : string) (cropBox : Cropper.Box) : Result string :=
  let* canvas := manualCropCanvas imageDataUrl cropBox in
  Ok (toDataURL canvas).

(** *** What the claims speak of *)

(** A grid of [rows] x [cols] cells. *)
Definition Grid (rows cols : nat) (gridImages : GridState) : Prop :=
  List.length gridImages = rows /\
  Forall (fun row => List.length row = cols) gridImages.

(** Cell [(r,c)] is not empty: it holds the source [imgSrc]. *)
Definition cellImage (gridImages : GridState) (r c : nat) (imgSrc : string) : Prop :=
  exists row,
    nth_error gridImages r = Some row /\
    nth_error row c = Some (Some imgSrc) /\
    imgSrc <> EmptyString.

(** The whole of [img] is drawn, untransformed, scaled to [dw] x [dh] at [(dx,dy)]. *)
Definition drawn (canvas : Canvas.Canvas) (img : Bitmap.Image) (dx dy dw dh : Q) : Prop :=
  In (Canvas.DrawImage img Canvas.identity
        0 0 (inject_Z (Bitmap.width img)) (inject_Z (Bitmap.height img)) dx dy dw dh)
     (Canvas.layers canvas).

(** The square of pixel [(X,Y)] meets the rectangle of size [dw] x [dh] at [(dx,dy)]. *)
Definition touches (dx dy dw dh : Q) (X Y : Z) : Prop :=
  (dx < inject_Z X + 1 /\ inject_Z X < dx + dw) /\
  (dy < inject_Z Y + 1 /\ inject_Z Y < dy + dh).

(** The only paint on pixel [(X,Y)] is the fill in [color]. *)
Definition solid (canvas : Canvas.Canvas) (color : string) (X Y : Z) : Prop :=
  Canvas.paintsAt canvas X Y = [Canvas.PaintFill color].

(** The requests one cell and one settled request contribute. *)
Definition cellsOf (gridImages : GridState) (r c : nat) : list (string * nat * nat) :=
  match cellSource gridImages r c with
  | Ok (Some imgSrc) => [(imgSrc, r, c)]
  | _ => []
  end.

Definition cellLayer (padding cellWidth cellHeight : Q) (cell : string * nat * nat)
    : list Canvas.Layer :=
  let '(imgSrc, r, c) := cell in
  match decode imgSrc with
  | Some img =>
      [Canvas.DrawImage img Canvas.identity
         0 0 (inject_Z (Bitmap.width img)) (inject_Z (Bitmap.height img))
         (cellOrigin padding cellWidth c) (cellOrigin padding cellHeight r)
         cellWidth cellHeight]
  | None => []
  end.

(** *** The loops of [mixImages] *)

Lemma cellSource_image (gridImages : GridState) (r c : nat) (imgSrc : string) :
  cellSource gridImages r c = Ok (Some imgSrc) <-> cellImage gridImages r c imgSrc.
Proof.
  unfold cellSource, cellImage. split.
  - destruct (nth_error gridImages r) as [row|] eqn:Er; [|discriminate].
    destruct (nth_error row c) as [[src|]|] eqn:Ec; try discriminate.
    destruct src as [|ch rest]; cbn [truthy]; [discriminate|].
    intros [= <-]. exists row. split; [reflexivity|]. split; [exact Ec|]. discriminate.
  - intros (row & -> & -> & Hne).
    destruct imgSrc; [contradiction|reflexivity].
Qed.

Lemma cellSource_row (gridImages : GridState) (r c : nat) :
  (r < List.length gridImages)%nat -> exists cell, cellSource gridImages r c = Ok cell.
Proof.
  intros Hr. unfold cellSource.
  destruct (nth_error gridImages r) as [row|] eqn:E.
  - destruct (nth_error row c) as [[src|]|]; eauto.
  - apply nth_error_None in E. lia.
Qed.

Lemma columns_loop (gridImages : GridState) (r : nat) (indices : list nat)
    (promises : list (string * nat * nat)) :
  (r < List.length gridImages)%nat ->
  forEach indices
    (fun c promises =>
       let* imgSrc := cellSource gridImages r c in
       Ok (match imgSrc with
           | Some imgSrc => promises ++ [(imgSrc, r, c)]
           | None => promises
           end))
    promises
  = Ok (promises ++ flat_map (cellsOf gridImages r) indices).
Proof.
  intros Hr. revert promises.
  induction indices as [|c rest IH]; intros promises; cbn [forEach flat_map].
  - now rewrite app_nil_r.
  - unfold cellsOf at 1.
    destruct (cellSource_row gridImages r c Hr) as (cell & ->). cbn [bind].
    rewrite IH. destruct cell; [rewrite <- app_assoc|]; reflexivity.
Qed.

Lemma pending_cells (gridImages : GridState) (cols rows : nat) :
  (rows <= List.length gridImages)%nat ->
  pending gridImages cols rows
  = Ok (flat_map (fun r => flat_map (cellsOf gridImages r) (seq 0 cols)) (seq 0 rows)).
Proof.
  intros Hrows. unfold pending.
  assert (H : forall indices promises,
             (forall r, In r indices -> (r < List.length gridImages)%nat) ->
             forEach indices
               (fun r promises =>
                  forEach (seq 0 cols)
                    (fun c promises =>
                       let* imgSrc := cellSource gridImages r c in
                       Ok (match imgSrc with
                           | Some imgSrc => promises ++ [(imgSrc, r, c)]
                           | None => promises
                           end))
                    promises)
               promises
             = Ok (promises ++
                   flat_map (fun r => flat_map (cellsOf gridImages r) (seq 0 cols)) indices)).
  { induction indices as [|r rest IH]; intros promises Hin; cbn [forEach flat_map].
    - now rewrite app_nil_r.
    - rewrite columns_loop by (apply Hin; now left). cbn [bind].
      rewrite IH by (intros; apply Hin; now right).
      now rewrite <- app_assoc. }
  rewrite H; [reflexivity|].
  intros r Hr. apply in_seq in Hr. lia.
Qed.

Lemma pending_In (gridImages : GridState) (cols rows : nat) (imgSrc : string) (r c : nat) :
  In (imgSrc, r, c)
     (flat_map (fun r => flat_map (cellsOf gridImages r) (seq 0 cols)) (seq 0 rows))
  <-> (r < rows)%nat /\ (c < cols)%nat /\ cellImage gridImages r c imgSrc.
Proof.
  rewrite in_flat_map. split.
  - intros (r' & Hr' & Hin). apply in_flat_map in Hin as (c' & Hc' & Hin).
    apply in_seq in Hr', Hc'. unfold cellsOf in Hin.
    destruct (cellSource gridImages r' c') as [[src|]|] eqn:E; try contradiction.
    destruct Hin as [[= <- <- <-]|[]].
    repeat split; try lia. now apply cellSource_image.
  - intros (Hr & Hc & Hcell). exists r. split; [apply in_seq; lia|].
    apply in_flat_map. exists c. split; [apply in_seq; lia|].
    unfold cellsOf. apply cellSource_image in Hcell. rewrite Hcell. now left.
Qed.

Lemma drawCells_canvas (padding cellWidth cellHeight : Q)
    (promises : list (string * nat * nat)) (canvas : Canvas.Canvas) :
  Canvas.transform canvas = Canvas.identity ->
  fold_left (drawCell padding cellWidth cellHeight) promises canvas
  = Canvas.mkCanvas (Canvas.width canvas) (Canvas.height canvas)
      (Canvas.fillStyle canvas) (Canvas.transform canvas)
      (rev (flat_map (cellLayer padding cellWidth cellHeight) promises)
       ++ Canvas.layers canvas).
Proof.
  revert canvas. induction promises as [|[[imgSrc r] c] rest IH]; intros canvas HT.
  - now destruct canvas.
  - cbn [fold_left flat_map]. unfold drawCell at 2, cellLayer at 1, loadImage.
    destruct (decode imgSrc) as [img|].
    + rewrite IH by exact HT.
      unfold Canvas.drawImage5, Canvas.drawImage9, Canvas.paint.
      cbn [Canvas.width Canvas.height Canvas.fillStyle Canvas.transform Canvas.layers].
      rewrite HT, rev_app_distr, <- app_assoc. reflexivity.
    + now rewrite IH by exact HT.
Qed.

Lemma flat_map_empty {A B : Type} (f : A -> list B) (l : list A) :
  (forall a, In a l -> f a = []) -> flat_map f l = [].
Proof.
  induction l as [|a l IH]; intros H; cbn [flat_map]; [reflexivity|].
  rewrite H by now left. apply IH. intros; apply H; now right.
Qed.

(** The canvas of [mixImages] once the background is filled. *)
Definition backdrop (W H : Z) (backgroundColor : string) : Canvas.Canvas :=
  Canvas.mkCanvas W H backgroundColor Canvas.identity
    [Canvas.FillRect backgroundColor Canvas.identity 0 0 (inject_Z W) (inject_Z H)].

Lemma backdrop_layer_paint (W H : Z) (backgroundColor : string) (X Y : Z) :
  (0 <= X < W)%Z -> (0 <= Y < H)%Z ->
  Canvas.layerPaint
    (Canvas.FillRect backgroundColor Canvas.identity 0 0 (inject_Z W) (inject_Z H)) X Y
  = Some (Canvas.PaintFill backgroundColor).
Proof.
  intros HX HY. apply Canvas.layerPaint_fill; cbn [Canvas.identity Canvas.t_a Canvas.t_d
    Canvas.t_e Canvas.t_f]; rewrite Canvas.unmap_identity.
  - pose proof (Canvas.inject_nonneg X ltac:(lia)).
    pose proof (Canvas.inject_succ_le X W ltac:(lia)). lra.
  - pose proof (Canvas.inject_nonneg Y ltac:(lia)).
    pose proof (Canvas.inject_succ_le Y H ltac:(lia)). lra.
Qed.

Lemma mixCanvas_start (gridImages : GridState) (cols rows : nat) (W H : Z)
    (padding : Q) (backgroundColor : string) :
  (forall c, getContext2d c = true) -> cssColor backgroundColor = true ->
  (0 <= W <= 2147483647)%Z -> (0 <= H <= 2147483647)%Z ->
  mixCanvas gridImages cols rows (inject_Z W) (inject_Z H) padding backgroundColor
  = let contentWidth := inject_Z W - padding * (inject_Z (Z.of_nat cols) + 1) in
    let contentHeight := inject_Z H - padding * (inject_Z (Z.of_nat rows) + 1) in
    if JS.leb contentWidth 0 || JS.leb contentHeight 0
    then Ok (backdrop W H backgroundColor)
    else
      let* promises := pending gridImages cols rows in
      Ok (fold_left
            (drawCell padding (contentWidth / inject_Z (Z.of_nat cols))
                      (contentHeight / inject_Z (Z.of_nat rows)))
            promises (backdrop W H backgroundColor)).
Proof.
  intros Hctx Hcss HW HH. unfold mixCanvas, getContext. rewrite Hctx. cbn [bind].
  unfold Canvas.fillRect, Canvas.paint, Canvas.setFillStyle. rewrite Hcss.
  unfold Canvas.setHeight, Canvas.setWidth, Canvas.createElement.
  cbn [Canvas.width Canvas.height Canvas.fillStyle Canvas.transform Canvas.layers].
  rewrite !Canvas.dimension_inject by assumption. reflexivity.
Qed.

(** C8: when the padding leaves no room for the cells (padding * (cols+1) >=
    finalWidth or padding * (rows+1) >= finalHeight), [mixImages] does not
    fail: it returns the encoding of a finalWidth x finalHeight canvas on
    which the background fill is the only thing painted, so that every
    pixel is the background colour and no cell image is drawn. *)
Theorem mixImages_padding_too_large (gridImages : GridState) (cols rows : nat)
    (W H : Z) (padding : Q) (backgroundColor : string) :
  (forall c, getContext2d c = true) -> cssColor backgroundColor = true ->
  (0 <= W <= 2147483647)%Z -> (0 <= H <= 2147483647)%Z ->
  inject_Z W <= padding * (inject_Z (Z.of_nat cols) + 1) \/
  inject_Z H <= padding * (inject_Z (Z.of_nat rows) + 1) ->
  exists canvas,
    mixImages gridImages cols rows (inject_Z W) (inject_Z H) padding backgroundColor
      = Ok (toDataURL canvas) /\
    Canvas.width canvas = W /\ Canvas.height canvas = H /\
    Canvas.layers canvas
      = [Canvas.FillRect backgroundColor Canvas.identity 0 0 (inject_Z W) (inject_Z H)] /\
    forall X Y, (0 <= X < W)%Z -> (0 <= Y < H)%Z -> solid canvas backgroundColor X Y.
Proof.
  intros Hctx Hcss HW HH Hpad.
  exists (backdrop W H backgroundColor).
  unfold mixImages. rewrite mixCanvas_start by assumption. cbv zeta.
  replace (JS.leb (inject_Z W - padding * (inject_Z (Z.of_nat cols) + 1)) 0
           || JS.leb (inject_Z H - padding * (inject_Z (Z.of_nat rows) + 1)) 0)
    with true.
  - cbn [bind]. repeat split.
    intros X Y HX HY. unfold solid. rewrite Canvas.paintsAt_inside by assumption.
    cbn [backdrop Canvas.layers flat_map].
    now rewrite backdrop_layer_paint by assumption.
  - symmetry. apply orb_true_iff.
    destruct Hpad; [left | right]; apply JS.leb_le; lra.
Qed.

(** C1: for a grid of rows x cols cells and a target size W x H,
    [mixImages] returns the encoding of a canvas of exactly W x H pixels on
    which, whenever contentWidth = W - p*(cols+1) > 0 and contentHeight =
    H - p*(rows+1) > 0, the image of every non-empty cell (r,c) is drawn
    whole, scaled to cellWidth x cellHeight, at x = p + c*(cellWidth + p),
    y = p + r*(cellHeight + p), with cellWidth = contentWidth/cols and
    cellHeight = contentHeight/rows, and on which every pixel that no drawn
    cell touches carries the background colour only. *)
Theorem mixImages_grid (gridImages : GridState) (cols rows : nat)
    (W H : Z) (padding : Q) (backgroundColor : string) :
  (forall c, getContext2d c = true) -> cssColor backgroundColor = true ->
  Grid rows cols gridImages ->
  (0 <= W <= 2147483647)%Z -> (0 <= H <= 2147483647)%Z ->
  exists canvas,
    mixImages gridImages cols rows (inject_Z W) (inject_Z H) padding backgroundColor
      = Ok (toDataURL canvas) /\
    Canvas.width canvas = W /\ Canvas.height canvas = H /\
    let contentWidth := inject_Z W - padding * (inject_Z (Z.of_nat cols) + 1) in
    let contentHeight := inject_Z H - padding * (inject_Z (Z.of_nat rows) + 1) in
    let cellWidth := contentWidth / inject_Z (Z.of_nat cols) in
    let cellHeight := contentHeight / inject_Z (Z.of_nat rows) in
    let cellX c := padding + inject_Z (Z.of_nat c) * (cellWidth + padding) in
    let cellY r := padding + inject_Z (Z.of_nat r) * (cellHeight + padding) in
    0 < contentWidth -> 0 < contentHeight ->
    (forall r c imgSrc img,
        (r < rows)%nat -> (c < cols)%nat ->
        cellImage gridImages r c imgSrc -> decode imgSrc = Some img ->
        drawn canvas img (cellX c) (cellY r) cellWidth cellHeight) /\
    (forall X Y,
        (0 <= X < W)%Z -> (0 <= Y < H)%Z ->
        (forall r c imgSrc img,
            (r < rows)%nat -> (c < cols)%nat ->
            cellImage gridImages r c imgSrc -> decode imgSrc = Some img ->
            ~ touches (cellX c) (cellY r) cellWidth cellHeight X Y) ->
        solid canvas backgroundColor X Y).
Proof.
  intros Hctx Hcss [Hrows _] HW HH.
  unfold mixImages. rewrite mixCanvas_start by assumption. cbv zeta.
  set (contentWidth := inject_Z W - padding * (inject_Z (Z.of_nat cols) + 1)).
  set (contentHeight := inject_Z H - padding * (inject_Z (Z.of_nat rows) + 1)).
  set (cellWidth := contentWidth / inject_Z (Z.of_nat cols)).
  set (cellHeight := contentHeight / inject_Z (Z.of_nat rows)).
  destruct (JS.leb contentWidth 0 || JS.leb contentHeight 0) eqn:Eguard.
  - exists (backdrop W H backgroundColor). cbn [bind]. repeat split.
    + intros r c imgSrc img _ _ _ _. exfalso.
      apply orb_true_iff in Eguard as [E|E]; apply JS.leb_le in E; lra.
    + exfalso. apply orb_true_iff in Eguard as [E|E]; apply JS.leb_le in E; lra.
  - rewrite pending_cells by lia. cbn [bind].
    rewrite drawCells_canvas by reflexivity.
    set (promises :=
           flat_map (fun r => flat_map (cellsOf gridImages r) (seq 0 cols)) (seq 0 rows)).
    eexists. split; [reflexivity|]. split; [reflexivity|]. split; [reflexivity|].
    intros _ _. split.
    + intros r c imgSrc img Hr Hc Hcell Hdec. unfold drawn. cbn [Canvas.layers].
      apply in_or_app. left. apply -> in_rev. apply in_flat_map.
      exists (imgSrc, r, c). split; [now apply pending_In|].
      unfold cellLayer. rewrite Hdec. now left.
    + intros X Y HX HY Hfree. unfold solid.
      rewrite Canvas.paintsAt_inside by assumption.
      cbn [Canvas.layers backdrop]. rewrite flat_map_app. cbn [flat_map].
      rewrite backdrop_layer_paint by assumption. rewrite app_nil_r.
      replace (flat_map _ (rev (flat_map (cellLayer padding cellWidth cellHeight) promises)))
        with (@nil Canvas.Paint); [reflexivity|].
      symmetry. apply flat_map_empty. intros l Hl.
      apply in_rev, in_flat_map in Hl as ([[imgSrc r] c] & Hin & Hl).
      apply pending_In in Hin as (Hr & Hc & Hcell).
      unfold cellLayer in Hl. destruct (decode imgSrc) as [img|] eqn:Hdec; [|destruct Hl].
      destruct Hl as [<-|[]].
      rewrite Canvas.layerPaint_draw_outside; [reflexivity|].
      cbn [Canvas.identity Canvas.t_a Canvas.t_d Canvas.t_e Canvas.t_f].
      rewrite !Canvas.unmap_identity.
      intros [[HX1 HX2] [HY1 HY2]].
      apply (Hfree r c imgSrc img Hr Hc Hcell Hdec).
      unfold touches, cellOrigin in *. repeat split; lra.
Qed.

(** *** The geometry of [letterboxImage] *)

Lemma dimension_floor (default : Z) (v : Q) :
  0 <= v -> v <= 1500 ->
  Canvas.dimension default v = Qfloor v /\ (0 <= Qfloor v <= 1500)%Z.
Proof.
  intros H0 H1.
  assert (Hfl : (0 <= Qfloor v <= 1500)%Z).
  { split.
    - change 0%Z with (Qfloor (inject_Z 0)). now apply Qfloor_resp_le.
    - change 1500%Z with (Qfloor (inject_Z 1500)). now apply Qfloor_resp_le. }
  split; [|exact Hfl].
  unfold Canvas.dimension, Canvas.truncate.
  replace (JS.ltb v 0) with false by (symmetry; now apply JS.ltb_ge).
  rewrite Z.mod_small by lia.
  destruct (Qfloor v <=? 2147483647)%Z eqn:E; [reflexivity | apply Z.leb_gt in E; lia].
Qed.

Lemma letterboxSize_fits (img : Bitmap.Image) (targetAspectRatio : Q) :
  (0 < Bitmap.width img)%Z -> (0 < Bitmap.height img)%Z -> 0 < targetAspectRatio ->
  let size := letterboxSize img targetAspectRatio in
  0 < fst size /\ 0 < snd size /\
  fst size / snd size == targetAspectRatio /\
  inject_Z (Bitmap.width img) <= fst size /\
  inject_Z (Bitmap.height img) <= snd size.
Proof.
  intros Hw Hh HR. unfold letterboxSize.
  assert (Hw' : 0 < inject_Z (Bitmap.width img))
    by (change 0 with (inject_Z 0); now rewrite <- Zlt_Qlt).
  assert (Hh' : 0 < inject_Z (Bitmap.height img))
    by (change 0 with (inject_Z 0); now rewrite <- Zlt_Qlt).
  set (w := inject_Z (Bitmap.width img)) in *.
  set (h := inject_Z (Bitmap.height img)) in *.
  assert (Hq : w == w / h * h) by (field; lra).
  assert (Hr : w == w / targetAspectRatio * targetAspectRatio) by (field; lra).
  assert (Hpos : 0 < w / targetAspectRatio) by (apply Qlt_shift_div_l; lra).
  destruct (JS.gtb (w / h) targetAspectRatio) eqn:E; cbn [fst snd].
  - apply JS.ltb_lt in E.
    repeat split; try lra.
    + field. split; lra.
    + apply Qle_shift_div_l; [exact HR|]. nra.
  - apply JS.ltb_ge in E.
    repeat split; try lra; try nra.
    field. lra.
Qed.

Lemma letterboxScale_fits (size : Q * Q) :
  0 < fst size -> 0 < snd size ->
  let scale := letterboxScale size in
  0 < scale /\ scale <= 1 /\ fst size * scale <= 1500 /\ snd size * scale <= 1500.
Proof.
  intros Hw Hh. unfold letterboxScale.
  set (a := 1500 / fst size). set (b := 1500 / snd size).
  assert (Ha : 0 < a) by (apply Qlt_shift_div_l; lra).
  assert (Hb : 0 < b) by (apply Qlt_shift_div_l; lra).
  assert (Ea : fst size * a == 1500) by (unfold a; field; lra).
  assert (Eb : snd size * b == 1500) by (unfold b; field; lra).
  pose proof (Q.le_min_l (Qmin a b) 1) as H1.
  pose proof (Q.le_min_r (Qmin a b) 1) as H2.
  pose proof (Q.le_min_l a b) as H3.
  pose proof (Q.le_min_r a b) as H4.
  assert (H5 : 0 < Qmin (Qmin a b) 1).
  { destruct (Q.min_spec (Qmin a b) 1) as [[_ ->]|[_ ->]]; [|lra].
    destruct (Q.min_spec a b) as [[_ ->]|[_ ->]]; assumption. }
  set (s := Qmin (Qmin a b) 1) in *.
  repeat split; try assumption; nra.
Qed.

(** The canvas of [letterboxImage], spelled out. *)
Lemma letterboxCanvas_layout (imageDataUrl : string) (img : Bitmap.Image)
    (targetAspectRatio : Q) (backgroundColor : option string) :
  (forall c, getContext2d c = true) ->
  decode imageDataUrl = Some img ->
  (0 < Bitmap.width img)%Z -> (0 < Bitmap.height img)%Z -> 0 < targetAspectRatio ->
  let size := letterboxSize img targetAspectRatio in
  let scale := letterboxScale size in
  let W := Qfloor (fst size * scale) in
  let H := Qfloor (snd size * scale) in
  let fill :=
    Canvas.fillStyle
      (Canvas.setFillStyle cssColor
         (match backgroundColor with Some s => s | None => "#FFFFFF"%string end)
         Canvas.createElement) in
  letterboxCanvas imageDataUrl targetAspectRatio backgroundColor
  = Ok (Canvas.mkCanvas W H fill Canvas.identity
          [Canvas.DrawImage img Canvas.identity
             0 0 (inject_Z (Bitmap.width img)) (inject_Z (Bitmap.height img))
             ((inject_Z W - inject_Z (Bitmap.width img) * scale) / 2)
             ((inject_Z H - inject_Z (Bitmap.height img) * scale) / 2)
             (inject_Z (Bitmap.width img) * scale)
             (inject_Z (Bitmap.height img) * scale);
           Canvas.FillRect fill Canvas.identity 0 0 (inject_Z W) (inject_Z H)]).
Proof.
  intros Hctx Hdec Hw Hh HR size scale W H fill.
  pose proof (letterboxSize_fits img targetAspectRatio Hw Hh HR) as Hsize.
  cbv zeta in Hsize. fold size in Hsize. destruct Hsize as (Hcw & Hch & _).
  pose proof (letterboxScale_fits size Hcw Hch) as Hscale.
  cbv zeta in Hscale. fold scale in Hscale. destruct Hscale as (Hs & _ & HW & HH).
  destruct (dimension_floor 300 (fst size * scale)) as [EW _];
    [apply Qmult_le_0_compat; apply Qlt_le_weak; assumption | exact HW |].
  destruct (dimension_floor 150 (snd size * scale)) as [EH _];
    [apply Qmult_le_0_compat; apply Qlt_le_weak; assumption | exact HH |].
  unfold letterboxCanvas, loadImage. rewrite Hdec. cbn [bind].
  unfold getContext. rewrite Hctx. cbn [bind].
  fold size. fold scale.
  unfold Canvas.drawImage5, Canvas.drawImage9, Canvas.fillRect, Canvas.paint.
  unfold fill, Canvas.setFillStyle.
  destruct (cssColor _);
    unfold Canvas.setHeight, Canvas.setWidth, Canvas.createElement;
    cbn [Canvas.width Canvas.height Canvas.fillStyle Canvas.transform Canvas.layers];
    rewrite EW, EH; reflexivity.
Qed.

(** C9: for a source image (of positive width and height) and a positive
    target aspect ratio, both dimensions of the canvas [letterboxImage]
    encodes are at most 1500 pixels, and the source is drawn whole at the
    uniform scale min(1500/canvasWidth, 1500/canvasHeight, 1), which is at
    most 1. *)
Theorem letterboxImage_bounded (imageDataUrl : string) (img : Bitmap.Image)
    (targetAspectRatio : Q) (backgroundColor : option string) :
  (forall c, getContext2d c = true) ->
  decode imageDataUrl = Some img ->
  (0 < Bitmap.width img)%Z -> (0 < Bitmap.height img)%Z -> 0 < targetAspectRatio ->
  exists canvas canvasWidth canvasHeight offsetX offsetY,
    letterboxImage imageDataUrl targetAspectRatio backgroundColor = Ok (toDataURL canvas) /\
    (Canvas.width canvas <= 1500)%Z /\ (Canvas.height canvas <= 1500)%Z /\
    letterboxSize img targetAspectRatio = (canvasWidth, canvasHeight) /\
    let scale := Qmin (Qmin (1500 / canvasWidth) (1500 / canvasHeight)) 1 in
    scale <= 1 /\
    drawn canvas img offsetX offsetY
      (inject_Z (Bitmap.width img) * scale) (inject_Z (Bitmap.height img) * scale).
Proof.
  intros Hctx Hdec Hw Hh HR.
  pose proof (letterboxCanvas_layout imageDataUrl img targetAspectRatio backgroundColor
                Hctx Hdec Hw Hh HR) as Hlayout.
  pose proof (letterboxSize_fits img targetAspectRatio Hw Hh HR) as Hsize.
  cbv zeta in Hlayout, Hsize.
  destruct (letterboxSize img targetAspectRatio) as [canvasWidth canvasHeight] eqn:Esize.
  cbn [fst snd] in Hsize. destruct Hsize as (Hcw & Hch & _).
  pose proof (letterboxScale_fits (canvasWidth, canvasHeight) Hcw Hch) as Hscale.
  cbv zeta in Hscale. cbn [fst snd] in Hscale, Hlayout.
  destruct Hscale as (Hs & Hs1 & HW & HH).
  unfold letterboxImage. rewrite Hlayout. cbn [bind].
  eexists. exists canvasWidth, canvasHeight. do 2 eexists.
  split; [reflexivity|]. cbn [Canvas.width Canvas.height].
  split; [|split; [|split; [reflexivity|split]]].
  - refine (proj2 (proj2 (dimension_floor 300 _ _ HW))).
    apply Qmult_le_0_compat; apply Qlt_le_weak; assumption.
  - refine (proj2 (proj2 (dimension_floor 150 _ _ HH))).
    apply Qmult_le_0_compat; apply Qlt_le_weak; assumption.
  - exact Hs1.
  - unfold drawn. cbn [Canvas.layers]. left. reflexivity.
Qed.


(** *** The pixel test of [autoCrop] *)

(** The boolean test is the comparison of the Euclidean distance with the
    tolerance. *)
Lemma sqrtExceeds_spec (d2 : Z) (tolerance : Q) :
  (0 <= d2)%Z ->
  sqrtExceeds d2 tolerance = true <-> (Q2R tolerance < sqrt (IZR d2))%R.
Proof.
  intros Hd. unfold sqrtExceeds. rewrite orb_true_iff, !JS.ltb_lt.
  assert (Hd' : (0 <= IZR d2)%R) by now apply IZR_le.
  pose proof (sqrt_pos (IZR d2)) as Hs.
  split.
  - intros [Hneg | Hsq].
    + apply Qlt_Rlt in Hneg. rewrite RMicromega.Q2R_0 in Hneg. lra.
    + apply Qlt_Rlt in Hsq. rewrite Q2R_mult, JS.Q2R_inject in Hsq.
      destruct (Rlt_le_dec (Q2R tolerance) 0) as [Hn|Hp]; [lra|].
      rewrite <- (sqrt_Rsqr (Q2R tolerance)) by exact Hp.
      apply sqrt_lt_1; [apply Rle_0_sqr | exact Hd' | exact Hsq].
  - intros Hlt. destruct (Qlt_le_dec tolerance 0) as [Hn|Hp]; [now left|right].
    apply Rlt_Qlt. rewrite Q2R_mult, JS.Q2R_inject.
    apply Qle_Rle in Hp. rewrite RMicromega.Q2R_0 in Hp.
    rewrite <- (sqrt_sqrt (IZR d2)) by exact Hd'. nra.
Qed.

(** The Euclidean distance, in RGB, from a pixel to a colour. *)
Definition distance (p : Bitmap.Pixel) (color : Rgb) : R :=
  sqrt (IZR ((Bitmap.red p - r color) ^ 2 + (Bitmap.green p - g color) ^ 2
             + (Bitmap.blue p - b color) ^ 2)).

Lemma isContent_spec (cropColor : option Rgb) (tolerance : Q) (p : Bitmap.Pixel) :
  isContent cropColor tolerance p = true <->
  (0 < Bitmap.alpha p)%Z /\
  match cropColor with
  | Some color => (Q2R tolerance < distance p color)%R
  | None => True
  end.
Proof.
  unfold isContent, distance. destruct cropColor as [color|].
  - rewrite andb_true_iff, Z.ltb_lt, sqrtExceeds_spec by nia. tauto.
  - rewrite Z.ltb_lt. tauto.
Qed.

(** *** The scan of [autoCrop] *)

(** [bd] is the tight bounding box of the pixels of a [w] x [h] image that
    satisfy [content]. *)
Definition bounding (content : Z -> Z -> bool) (w h : Z) (bd : Bounds) : Prop :=
  (forall X Y, (0 <= X < w)%Z -> (0 <= Y < h)%Z -> content X Y = true ->
     (minX bd <= X <= maxX bd)%Z /\ (minY bd <= Y <= maxY bd)%Z) /\
  (exists Y, (0 <= minX bd < w)%Z /\ (0 <= Y < h)%Z /\ content (minX bd) Y = true) /\
  (exists Y, (0 <= maxX bd < w)%Z /\ (0 <= Y < h)%Z /\ content (maxX bd) Y = true) /\
  (exists X, (0 <= X < w)%Z /\ (0 <= minY bd < h)%Z /\ content X (minY bd) = true) /\
  (exists X, (0 <= X < w)%Z /\ (0 <= maxY bd < h)%Z /\ content X (maxY bd) = true).

(** The positions in the order the loops visit them, as (y, x). *)
Definition positions (w h : Z) : list (Z * Z) :=
  flat_map (fun y => map (pair y) (Canvas.range w)) (Canvas.range h).

Lemma positions_In (w h x y : Z) :
  In (y, x) (positions w h) <-> (0 <= x < w)%Z /\ (0 <= y < h)%Z.
Proof.
  unfold positions. rewrite in_flat_map. split.
  - intros (y' & Hy & Hin). apply in_map_iff in Hin as (x' & [= <- <-] & Hx).
    apply Canvas.range_In in Hy, Hx. tauto.
  - intros [Hx Hy]. exists y. split; [now apply Canvas.range_In|].
    apply in_map, Canvas.range_In, Hx.
Qed.

Lemma fold_left_rows {A B C : Type} (f : A -> B -> C -> A) (rows : list B) (cols : list C)
    (a : A) :
  fold_left (fun a y => fold_left (fun a x => f a y x) cols a) rows a
  = fold_left (fun a yx => f a (fst yx) (snd yx))
      (flat_map (fun y => map (pair y) cols) rows) a.
Proof.
  revert a. induction rows as [|y rows IH]; intros a; cbn [fold_left flat_map].
  - reflexivity.
  - rewrite fold_left_app, <- IH. f_equal.
    clear. revert a. induction cols as [|x cols IH]; intros a; cbn [fold_left map].
    + reflexivity.
    + apply IH.
Qed.

Section Scan.

Variable data : list Z.
Variable w h : Z.
Variable cropColor : option Rgb.
Variable tolerance : Q.

Definition content (X Y : Z) : bool :=
  isContent cropColor tolerance (dataPixel data w X Y).

Definition step (bd : Bounds) (yx : Z * Z) : Bounds :=
  scanPixel data w cropColor tolerance (fst yx) bd (snd yx).

Lemma scan_positions :
  scan data w h cropColor tolerance
  = fold_left step (positions w h) (mkBounds w h (-1) (-1)).
Proof.
  unfold scan, positions, step.
  apply (fold_left_rows (fun bd y x => scanPixel data w cropColor tolerance y bd x)).
Qed.

Lemma step_content (bd : Bounds) (x y : Z) :
  content x y = true ->
  step bd (y, x)
  = mkBounds (if (x <? minX bd)%Z then x else minX bd)
             (if (y <? minY bd)%Z then y else minY bd)
             (if (maxX bd <? x)%Z then x else maxX bd)
             (if (maxY bd <? y)%Z then y else maxY bd).
Proof.
  intros Hc. unfold step, scanPixel. cbn [fst snd]. unfold content in Hc. rewrite Hc.
  destruct bd as [x0 y0 x1 y1]. cbn [minX minY maxX maxY].
  destruct (x <? x0)%Z; cbn [minX minY maxX maxY];
    destruct (x1 <? x)%Z; cbn [minX minY maxX maxY];
    destruct (y <? y0)%Z; cbn [minX minY maxX maxY];
    destruct (y1 <? y)%Z; reflexivity.
Qed.

Lemma step_other (bd : Bounds) (x y : Z) :
  content x y = false -> step bd (y, x) = bd.
Proof.
  intros Hc. unfold step, scanPixel. cbn [fst snd]. unfold content in Hc. now rewrite Hc.
Qed.

(** What holds of the bounds once the positions [seen] have been visited. *)
Definition scanned (seen : list (Z * Z)) (bd : Bounds) : Prop :=
  (forall x y, In (y, x) seen -> content x y = true ->
     (minX bd <= x <= maxX bd)%Z /\ (minY bd <= y <= maxY bd)%Z) /\
  (minX bd = w \/ exists y, In (y, minX bd) seen /\ content (minX bd) y = true) /\
  (maxX bd = (-1)%Z \/ exists y, In (y, maxX bd) seen /\ content (maxX bd) y = true) /\
  (minY bd = h \/ exists x, In (minY bd, x) seen /\ content x (minY bd) = true) /\
  (maxY bd = (-1)%Z \/ exists x, In (maxY bd, x) seen /\ content x (maxY bd) = true).

Lemma scanned_step (seen : list (Z * Z)) (bd : Bounds) (yx : Z * Z) :
  scanned seen bd -> scanned (seen ++ [yx]) (step bd yx).
Proof.
  destruct yx as [y x]. intros (Hall & Hx0 & Hx1 & Hy0 & Hy1).
  assert (Hnew : In (y, x) (seen ++ [(y, x)])) by (apply in_or_app; right; now left).
  assert (Hold : forall p, In p seen -> In p (seen ++ [(y, x)]))
    by (intros; apply in_or_app; now left).
  destruct (content x y) eqn:Hc.
  - rewrite step_content by exact Hc. unfold scanned. cbn [minX minY maxX maxY].
    split; [|split; [|split; [|split]]].
    + intros x' y' Hin Hc'. apply in_app_or in Hin as [Hin|[[= <- <-]|[]]].
      * specialize (Hall x' y' Hin Hc').
        destruct (x <? minX bd)%Z eqn:E1; destruct (y <? minY bd)%Z eqn:E2;
          destruct (maxX bd <? x)%Z eqn:E3; destruct (maxY bd <? y)%Z eqn:E4; lia.
      * destruct (x <? minX bd)%Z eqn:E1; destruct (y <? minY bd)%Z eqn:E2;
          destruct (maxX bd <? x)%Z eqn:E3; destruct (maxY bd <? y)%Z eqn:E4; lia.
    + destruct (x <? minX bd)%Z; [right; eauto|].
      destruct Hx0 as [?|(y' & ? & ?)]; [now left | right; eauto].
    + destruct (maxX bd <? x)%Z; [right; eauto|].
      destruct Hx1 as [?|(y' & ? & ?)]; [now left | right; eauto].
    + destruct (y <? minY bd)%Z; [right; eauto|].
      destruct Hy0 as [?|(x' & ? & ?)]; [now left | right; eauto].
    + destruct (maxY bd <? y)%Z; [right; eauto|].
      destruct Hy1 as [?|(x' & ? & ?)]; [now left | right; eauto].
  - rewrite step_other by exact Hc. unfold scanned.
    split; [|split; [|split; [|split]]].
    + intros x' y' Hin Hc'. apply in_app_or in Hin as [Hin|[[= <- <-]|[]]].
      * now apply Hall.
      * congruence.
    + destruct Hx0 as [?|(y' & ? & ?)]; [now left | right; eauto].
    + destruct Hx1 as [?|(y' & ? & ?)]; [now left | right; eauto].
    + destruct Hy0 as [?|(x' & ? & ?)]; [now left | right; eauto].
    + destruct Hy1 as [?|(x' & ? & ?)]; [now left | right; eauto].
Qed.

Lemma scanned_fold (todo seen : list (Z * Z)) (bd : Bounds) :
  scanned seen bd -> scanned (seen ++ todo) (fold_left step todo bd).
Proof.
  revert seen bd. induction todo as [|yx todo IH]; intros seen bd Hinv; cbn [fold_left].
  - now rewrite app_nil_r.
  - replace (seen ++ yx :: todo) with ((seen ++ [yx]) ++ todo)
      by now rewrite <- app_assoc.
    apply IH, scanned_step, Hinv.
Qed.

Lemma scan_scanned : scanned (positions w h) (scan data w h cropColor tolerance).
Proof.
  rewrite scan_positions. apply (scanned_fold (positions w h) []).
  unfold scanned. cbn [minX minY maxX maxY In].
  split; [intros ? ? []|]. repeat split; now left.
Qed.

(** Without a content pixel the scan leaves [maxX] at -1. *)
Lemma scan_nothing :
  (forall X Y, (0 <= X < w)%Z -> (0 <= Y < h)%Z -> content X Y = false) ->
  maxX (scan data w h cropColor tolerance) = (-1)%Z.
Proof.
  intros Hnone. destruct scan_scanned as (_ & _ & [E|(y & Hin & Hc)] & _); [exact E|].
  apply positions_In in Hin as [HX HY]. rewrite (Hnone _ _ HX HY) in Hc. discriminate.
Qed.

(** With a content pixel the scan ends on their tight bounding box. *)
Lemma scan_bounding :
  (exists X Y, (0 <= X < w)%Z /\ (0 <= Y < h)%Z /\ content X Y = true) ->
  bounding content w h (scan data w h cropColor tolerance) /\
  maxX (scan data w h cropColor tolerance) <> (-1)%Z.
Proof.
  intros (X0 & Y0 & HX0 & HY0 & Hc0).
  destruct scan_scanned as (Hall & Hx0 & Hx1 & Hy0 & Hy1).
  set (bd := scan data w h cropColor tolerance) in *.
  assert (Hin0 : In (Y0, X0) (positions w h)) by now apply positions_In.
  pose proof (Hall X0 Y0 Hin0 Hc0) as [HbX HbY].
  split; [|lia]. unfold bounding.
  split; [|split; [|split; [|split]]].
  - intros X Y HX HY Hc. apply Hall; [now apply positions_In | exact Hc].
  - destruct Hx0 as [E|(y & Hin & Hc)]; [lia|].
    apply positions_In in Hin. exists y. tauto.
  - destruct Hx1 as [E|(y & Hin & Hc)]; [lia|].
    apply positions_In in Hin. exists y. tauto.
  - destruct Hy0 as [E|(x & Hin & Hc)]; [lia|].
    apply positions_In in Hin. exists x. tauto.
  - destruct Hy1 as [E|(x & Hin & Hc)]; [lia|].
    apply positions_In in Hin. exists x. tauto.
Qed.

End Scan.

(** *** [autoCrop] *)

Lemma sourceCanvas_value (message : string) (img : Bitmap.Image) :
  (forall c, getContext2d c = true) -> Bitmap.valid img ->
  sourceCanvas message img
  = Ok (Canvas.mkCanvas (Bitmap.width img) (Bitmap.height img) "#000000" Canvas.identity
          [Canvas.DrawImage img Canvas.identity
             0 0 (inject_Z (Bitmap.width img)) (inject_Z (Bitmap.height img))
             0 0 (inject_Z (Bitmap.width img)) (inject_Z (Bitmap.height img))]).
Proof.
  intros Hctx [Hw Hh]. unfold sourceCanvas, getContext. rewrite Hctx. cbn [bind].
  unfold Canvas.drawImage3, Canvas.drawImage5, Canvas.drawImage9, Canvas.paint.
  unfold Canvas.setHeight, Canvas.setWidth, Canvas.createElement.
  cbn [Canvas.width Canvas.height Canvas.fillStyle Canvas.transform Canvas.layers].
  rewrite !Canvas.dimension_inject by lia. reflexivity.
Qed.

Lemma dataPixel_getImageData (c : Canvas.Canvas) (X Y : Z) :
  (0 <= X < Canvas.width c)%Z -> (0 <= Y < Canvas.height c)%Z ->
  dataPixel (Canvas.getImageData composite c) (Canvas.width c) X Y
  = Canvas.pixelAt composite c X Y.
Proof.
  intros HX HY. rewrite <- Canvas.bitmap_pixel by assumption.
  unfold Bitmap.pixel, Canvas.bitmap, dataPixel.
  cbn [Bitmap.width Bitmap.height Bitmap.data].
  replace (Bitmap.inside (Canvas.width c) (Canvas.height c) X Y) with true; [reflexivity|].
  symmetry. unfold Bitmap.inside. repeat (apply andb_true_intro; split); lia.
Qed.

Lemma bounding_ext (content1 content2 : Z -> Z -> bool) (w h : Z) (bd : Bounds) :
  (forall X Y, (0 <= X < w)%Z -> (0 <= Y < h)%Z -> content1 X Y = content2 X Y) ->
  bounding content1 w h bd -> bounding content2 w h bd.
Proof.
  intros Hext (Hall & (y0 & ? & ? & ?) & (y1 & ? & ? & ?) & (x0 & ? & ? & ?) & (x1 & ? & ? & ?)).
  unfold bounding. split; [|split; [|split; [|split]]].
  - intros X Y HX HY Hc. apply Hall; try assumption. now rewrite Hext.
  - exists y0. rewrite <- Hext by assumption. tauto.
  - exists y1. rewrite <- Hext by assumption. tauto.
  - exists x0. rewrite <- Hext by assumption. tauto.
  - exists x1. rewrite <- Hext by assumption. tauto.
Qed.

Lemma crop_axis (lo n X : Z) :
  (0 <= X < n)%Z ->
  inject_Z lo + (inject_Z X + (1#2) - 0) * inject_Z n / inject_Z n
  == inject_Z (lo + X) + (1#2).
Proof.
  intros HX.
  pose proof (Canvas.inject_nonneg X ltac:(lia)).
  pose proof (Canvas.inject_succ_le X n ltac:(lia)).
  rewrite (inject_Z_plus lo X). field. lra.
Qed.

(** What the scan of [autoCrop] classifies is the pixels of the image. *)
Lemma scanned_content (img : Bitmap.Image) (cropColor : option Rgb) (tolerance : Q)
    (c : Canvas.Canvas) (X Y : Z) :
  Canvas.lossless composite ->
  Canvas.width c = Bitmap.width img -> Canvas.height c = Bitmap.height img ->
  Canvas.layers c
    = [Canvas.DrawImage img Canvas.identity
         0 0 (inject_Z (Bitmap.width img)) (inject_Z (Bitmap.height img))
         0 0 (inject_Z (Bitmap.width img)) (inject_Z (Bitmap.height img))] ->
  (0 <= X < Bitmap.width img)%Z -> (0 <= Y < Bitmap.height img)%Z ->
  content (Canvas.getImageData composite c) (Canvas.width c) cropColor tolerance X Y
  = isContent cropColor tolerance (Bitmap.pixel img X Y).
Proof.
  intros Hexact Hw Hh Hlayers HX HY. unfold content.
  rewrite dataPixel_getImageData by lia.
  now rewrite (Canvas.pixelAt_copy composite c img) by (assumption || lia).
Qed.



(** *** [flipImage] *)

(** The position a flip takes the pixel at [(X,Y)] from. *)
Definition mirrored (direction : Direction) (img : Bitmap.Image) (X Y : Z) : Z * Z :=
  match direction with
  | horizontal => ((Bitmap.width img - 1 - X)%Z, Y)
  | vertical => (X, (Bitmap.height img - 1 - Y)%Z)
  end.

Lemma mirror_axis (n X : Z) :
  (0 <= X < n)%Z ->
  (0 <= Canvas.unmap (1 * -1) (0 + 1 * inject_Z n) X /\
   Canvas.unmap (1 * -1) (0 + 1 * inject_Z n) X < 0 + inject_Z n) /\
  0 + (Canvas.unmap (1 * -1) (0 + 1 * inject_Z n) X - 0) * inject_Z n / inject_Z n
  == inject_Z (n - 1 - X) + (1#2).
Proof.
  intros HX.
  pose proof (Canvas.inject_nonneg X ltac:(lia)).
  pose proof (Canvas.inject_succ_le X n ltac:(lia)).
  rewrite Canvas.unmap_mirror, Canvas.inject_mirror.
  split; [split; lra|]. field. lra.
Qed.

Lemma still_axis (n X : Z) :
  (0 <= X < n)%Z ->
  (0 <= Canvas.unmap (1 * 1) (0 + 1 * 0) X /\
   Canvas.unmap (1 * 1) (0 + 1 * 0) X < 0 + inject_Z n) /\
  0 + (Canvas.unmap (1 * 1) (0 + 1 * 0) X - 0) * inject_Z n / inject_Z n
  == inject_Z X + (1#2).
Proof.
  intros HX.
  pose proof (Canvas.inject_nonneg X ltac:(lia)).
  pose proof (Canvas.inject_succ_le X n ltac:(lia)).
  rewrite Canvas.unmap_still.
  split; [split; lra|]. field. lra.
Qed.

(** The canvas of [flipImage] shows the image mirrored. *)
Lemma flipCanvas_mirrors (imageDataUrl : string) (direction : Direction)
    (img : Bitmap.Image) :
  Canvas.lossless composite ->
  (forall c, getContext2d c = true) ->
  decode imageDataUrl = Some img -> Bitmap.valid img ->
  exists canvas,
    flipCanvas imageDataUrl direction = Ok canvas /\
    Canvas.width canvas = Bitmap.width img /\
    Canvas.height canvas = Bitmap.height img /\
    forall X Y,
      (0 <= X < Bitmap.width img)%Z -> (0 <= Y < Bitmap.height img)%Z ->
      Canvas.pixelAt composite canvas X Y
      = Bitmap.pixel img (fst (mirrored direction img X Y)) (snd (mirrored direction img X Y)).
Proof.
  intros Hexact Hctx Hdec [Hw Hh].
  unfold flipCanvas, loadImage. rewrite Hdec. cbn [bind].
  unfold getContext. rewrite Hctx. cbn [bind].
  unfold Canvas.drawImage3, Canvas.drawImage5, Canvas.drawImage9, Canvas.paint.
  unfold Canvas.setHeight, Canvas.setWidth, Canvas.createElement.
  cbn [Canvas.width Canvas.height].
  rewrite !Canvas.dimension_inject by lia.
  eexists. split; [reflexivity|].
  destruct direction; unfold Canvas.scale, Canvas.translate;
    cbn [Canvas.width Canvas.height Canvas.fillStyle Canvas.transform Canvas.layers
         Canvas.identity Canvas.t_a Canvas.t_d Canvas.t_e Canvas.t_f mirrored fst snd];
    (split; [reflexivity|]); (split; [reflexivity|]); intros X Y HX HY.
  - destruct (mirror_axis (Bitmap.width img) X HX) as [HsX Hu].
    destruct (still_axis (Bitmap.height img) Y HY) as [HsY Hv].
    eapply Canvas.pixelAt_single; try eassumption; try reflexivity; assumption.
  - destruct (still_axis (Bitmap.width img) X HX) as [HsX Hu].
    destruct (mirror_axis (Bitmap.height img) Y HY) as [HsY Hv].
    eapply Canvas.pixelAt_single; try eassumption; try reflexivity; assumption.
Qed.


(** *** Failed loads in [mixImages] *)

(** [layer] is the image of a cell that loaded, drawn in the place of the cell. *)
Definition loadedCell (gridImages : GridState) (cols rows : nat)
    (padding cellWidth cellHeight : Q) (layer : Canvas.Layer) : Prop :=
  exists r c imgSrc img,
    (r < rows)%nat /\ (c < cols)%nat /\
    cellImage gridImages r c imgSrc /\ decode imgSrc = Some img /\
    layer = Canvas.DrawImage img Canvas.identity
              0 0 (inject_Z (Bitmap.width img)) (inject_Z (Bitmap.height img))
              (cellOrigin padding cellWidth c) (cellOrigin padding cellHeight r)
              cellWidth cellHeight.

(** [mixImages] succeeds whether or not the images of the cells load, and
    draws nothing for a cell whose image does not. *)
Lemma mixImages_loaded_only (gridImages : GridState) (cols rows : nat)
    (W H : Z) (padding : Q) (backgroundColor : string) :
  (forall c, getContext2d c = true) -> cssColor backgroundColor = true ->
  Grid rows cols gridImages ->
  (0 <= W <= 2147483647)%Z -> (0 <= H <= 2147483647)%Z ->
  exists canvas,
    mixImages gridImages cols rows (inject_Z W) (inject_Z H) padding backgroundColor
      = Ok (toDataURL canvas) /\
    forall layer, In layer (Canvas.layers canvas) ->
      layer = Canvas.FillRect backgroundColor Canvas.identity 0 0 (inject_Z W) (inject_Z H) \/
      loadedCell gridImages cols rows padding
        ((inject_Z W - padding * (inject_Z (Z.of_nat cols) + 1)) / inject_Z (Z.of_nat cols))
        ((inject_Z H - padding * (inject_Z (Z.of_nat rows) + 1)) / inject_Z (Z.of_nat rows))
        layer.
Proof.
  intros Hctx Hcss [Hrows _] HW HH.
  unfold mixImages. rewrite mixCanvas_start by assumption. cbv zeta.
  destruct (JS.leb _ 0 || JS.leb _ 0).
  - exists (backdrop W H backgroundColor). cbn [bind]. split; [reflexivity|].
    intros layer [<-|[]]. now left.
  - rewrite pending_cells by lia. cbn [bind].
    rewrite drawCells_canvas by reflexivity.
    eexists. split; [reflexivity|]. cbn [Canvas.layers backdrop].
    intros layer Hin. apply in_app_or in Hin as [Hin|[<-|[]]]; [right | now left].
    apply in_rev, in_flat_map in Hin as ([[imgSrc r] c] & Hin & Hl).
    apply pending_In in Hin as (Hr & Hc & Hcell).
    unfold cellLayer in Hl. destruct (decode imgSrc) as [img|] eqn:Hdec; [|destruct Hl].
    destruct Hl as [<-|[]].
    exists r, c, imgSrc, img. repeat split; assumption.
Qed.

(** *** The places of the cells of [mixImages] *)

Lemma inject_nat_nonneg (n : nat) : 0 <= inject_Z (Z.of_nat n).
Proof. apply Canvas.inject_nonneg. lia. Qed.

Lemma inject_nat_succ_le (i n : nat) :
  (i < n)%nat -> inject_Z (Z.of_nat i) + 1 <= inject_Z (Z.of_nat n).
Proof. intros H. apply Canvas.inject_succ_le. lia. Qed.

Lemma cell_inside (padding content : Q) (n i : nat) :
  0 <= padding -> 0 < content -> (i < n)%nat ->
  padding <= cellOrigin padding (content / inject_Z (Z.of_nat n)) i /\
  cellOrigin padding (content / inject_Z (Z.of_nat n)) i + content / inject_Z (Z.of_nat n)
  <= content + padding * inject_Z (Z.of_nat n).
Proof.
  intros Hp Hc Hi. unfold cellOrigin.
  pose proof (inject_nat_nonneg i) as HI.
  pose proof (inject_nat_succ_le i n Hi) as HN.
  set (I := inject_Z (Z.of_nat i)) in *. set (N := inject_Z (Z.of_nat n)) in *.
  assert (Hsize : 0 < content / N) by (apply Qlt_shift_div_l; lra).
  assert (E : content == content / N * N) by (field; lra).
  set (size := content / N) in *.
  split; nra.
Qed.

Lemma cell_apart (padding size : Q) (i j : nat) :
  0 <= padding -> 0 <= size -> (i < j)%nat ->
  cellOrigin padding size i + size + padding <= cellOrigin padding size j.
Proof.
  intros Hp Hs Hij. unfold cellOrigin.
  pose proof (inject_nat_nonneg i) as HI.
  pose proof (inject_nat_succ_le i j Hij) as HJ.
  set (I := inject_Z (Z.of_nat i)) in *. set (J := inject_Z (Z.of_nat j)) in *.
  nra.
Qed.

(** With a padding that is not negative and room left for the cells, every
    cell of [mixImages] lies inside the canvas, at least the padding away
    from its border, and two cells of different columns (or rows) are at
    least the padding apart: no two cells overlap. *)
Theorem mixImages_cells_apart (cols rows : nat) (finalWidth finalHeight padding : Q) :
  0 <= padding ->
  0 < finalWidth - padding * (inject_Z (Z.of_nat cols) + 1) ->
  0 < finalHeight - padding * (inject_Z (Z.of_nat rows) + 1) ->
  let cellWidth :=
    (finalWidth - padding * (inject_Z (Z.of_nat cols) + 1)) / inject_Z (Z.of_nat cols) in
  let cellHeight :=
    (finalHeight - padding * (inject_Z (Z.of_nat rows) + 1)) / inject_Z (Z.of_nat rows) in
  (forall r c, (r < rows)%nat -> (c < cols)%nat ->
     padding <= cellOrigin padding cellWidth c /\
     cellOrigin padding cellWidth c + cellWidth <= finalWidth - padding /\
     padding <= cellOrigin padding cellHeight r /\
     cellOrigin padding cellHeight r + cellHeight <= finalHeight - padding) /\
  (forall c c', (c < c')%nat -> (c' < cols)%nat ->
     cellOrigin padding cellWidth c + cellWidth + padding <= cellOrigin padding cellWidth c') /\
  (forall r r', (r < r')%nat -> (r' < rows)%nat ->
     cellOrigin padding cellHeight r + cellHeight + padding
     <= cellOrigin padding cellHeight r').
Proof.
  intros Hp HcW HcH cellWidth cellHeight.
  split; [|split].
  - intros r c Hr Hc.
    destruct (cell_inside padding _ cols c Hp HcW Hc) as [H1 H2].
    destruct (cell_inside padding _ rows r Hp HcH Hr) as [H3 H4].
    fold cellWidth in H1, H2. fold cellHeight in H3, H4.
    repeat split; lra.
  - intros c c' Hcc Hc'. apply cell_apart; [exact Hp | | exact Hcc].
    apply Qlt_le_weak, Qlt_shift_div_l; [|lra].
    pose proof (inject_nat_succ_le c' cols Hc'). pose proof (inject_nat_nonneg c'). lra.
  - intros r r' Hrr Hr'. apply cell_apart; [exact Hp | | exact Hrr].
    apply Qlt_le_weak, Qlt_shift_div_l; [|lra].
    pose proof (inject_nat_succ_le r' rows Hr'). pose proof (inject_nat_nonneg r'). lra.
Qed.

(** *** The order in which the images of [mixImages] arrive *)

Lemma flat_map_flat_map {A B C : Type} (h : B -> list C) (k : A -> list B) (l : list A) :
  flat_map h (flat_map k l) = flat_map (fun a => flat_map h (k a)) l.
Proof.
  induction l as [|a l IH]; cbn [flat_map]; [reflexivity|].
  now rewrite flat_map_app, IH.
Qed.

(** If the elements of a list that contribute anything are all the same
    element, the list contributes what that one element does. *)
Lemma flat_map_single {A B : Type} (h : A -> list B) (l : list A) :
  NoDup l ->
  (forall a, In a l -> (List.length (h a) <= 1)%nat) ->
  (forall a a', In a l -> In a' l -> h a <> [] -> h a' <> [] -> a = a') ->
  (List.length (flat_map h l) <= 1)%nat.
Proof.
  induction l as [|a l IH]; intros Hnd Hlen Huniq; cbn [flat_map]; [cbn; lia|].
  inversion Hnd as [|? ? Hnotin Hnd']; subst.
  rewrite length_app.
  destruct (h a) as [|b rest] eqn:Ea.
  - cbn [List.length]. apply IH; [exact Hnd' | |].
    + intros a' Ha'. apply Hlen. now right.
    + intros a1 a2 H1 H2. apply Huniq; now right.
  - rewrite (flat_map_empty h l).
    + specialize (Hlen a (or_introl eq_refl)). rewrite Ea in Hlen. cbn in *. lia.
    + intros a' Ha'. destruct (h a') as [|b' rest'] eqn:Ea'; [reflexivity|].
      exfalso. apply Hnotin.
      rewrite (Huniq a a'); [exact Ha' | now left | now right | |];
        [rewrite Ea | rewrite Ea']; discriminate.
Qed.

Lemma Permutation_short {B : Type} (l l' : list B) :
  Permutation l l' -> (List.length l' <= 1)%nat -> l = l'.
Proof.
  intros Hperm Hlen. pose proof (Permutation_length Hperm) as Elen.
  destruct l' as [|b' [|? ?]]; [| |cbn in Hlen; lia].
  - destruct l; [reflexivity | discriminate].
  - destruct l as [|b [|? ?]]; try discriminate.
    f_equal. now apply Permutation_length_1.
Qed.

(** What one layer puts on pixel [(X,Y)]. *)
Definition layerPaints (X Y : Z) (layer : Canvas.Layer) : list Canvas.Paint :=
  match Canvas.layerPaint layer X Y with Some p => [p] | None => [] end.

(** The centre of pixel [index] lies in the stretch of cell [i]. *)
Definition inCell (padding size : Q) (i : nat) (index : Z) : Prop :=
  cellOrigin padding size i <= inject_Z index + (1#2) /\
  inject_Z index + (1#2) < cellOrigin padding size i + size.

Lemma inCell_unique (padding size : Q) (i j : nat) (index : Z) :
  0 <= padding -> 0 <= size ->
  inCell padding size i index -> inCell padding size j index -> i = j.
Proof.
  intros Hp Hs [Hi1 Hi2] [Hj1 Hj2].
  destruct (Nat.lt_trichotomy i j) as [Hlt|[E|Hlt]]; [|exact E|].
  - pose proof (cell_apart padding size i j Hp Hs Hlt). lra.
  - pose proof (cell_apart padding size j i Hp Hs Hlt). lra.
Qed.

Lemma cellPaints_length (padding cellWidth cellHeight : Q) (X Y : Z)
    (cell : string * nat * nat) :
  (List.length (flat_map (layerPaints X Y) (cellLayer padding cellWidth cellHeight cell)) <= 1)%nat.
Proof.
  destruct cell as [[imgSrc r] c]. unfold cellLayer.
  destruct (decode imgSrc); cbn [flat_map]; [|cbn; lia].
  unfold layerPaints. destruct (Canvas.layerPaint _ X Y); cbn; lia.
Qed.

Lemma cellPaints_inCell (padding cellWidth cellHeight : Q) (X Y : Z)
    (imgSrc : string) (r c : nat) :
  flat_map (layerPaints X Y) (cellLayer padding cellWidth cellHeight (imgSrc, r, c)) <> [] ->
  inCell padding cellWidth c X /\ inCell padding cellHeight r Y.
Proof.
  unfold cellLayer, inCell. destruct (decode imgSrc) as [img|]; cbn [flat_map];
    [|intros H; now contradiction H].
  unfold layerPaints. cbn [Canvas.layerPaint Canvas.identity Canvas.t_a Canvas.t_d
                           Canvas.t_e Canvas.t_f].
  destruct (Canvas.spans _ cellWidth _) eqn:EX; cbn [andb]; [|intros H; now contradiction H].
  destruct (Canvas.spans _ cellHeight _) eqn:EY; [|intros H; now contradiction H].
  intros _. apply Canvas.spans_true in EX, EY.
  rewrite Canvas.unmap_identity in EX, EY. tauto.
Qed.

(** At most one of the requested cells paints a given pixel. *)
Lemma pending_paints_single (gridImages : GridState) (cols rows : nat)
    (padding cellWidth cellHeight : Q) (X Y : Z) :
  0 <= padding -> 0 <= cellWidth -> 0 <= cellHeight ->
  (List.length
     (flat_map (layerPaints X Y)
        (flat_map (cellLayer padding cellWidth cellHeight)
           (flat_map (fun r => flat_map (cellsOf gridImages r) (seq 0 cols)) (seq 0 rows))))
   <= 1)%nat.
Proof.
  intros Hp Hw Hh.
  rewrite flat_map_flat_map.
  rewrite (flat_map_flat_map _ (fun r => flat_map (cellsOf gridImages r) (seq 0 cols))).
  set (cellPaints := fun cell =>
         flat_map (layerPaints X Y) (cellLayer padding cellWidth cellHeight cell)).
  assert (Hcell : forall r c,
             (List.length (flat_map cellPaints (cellsOf gridImages r c)) <= 1)%nat /\
             (flat_map cellPaints (cellsOf gridImages r c) <> [] ->
              inCell padding cellWidth c X /\ inCell padding cellHeight r Y)).
  { intros r c. unfold cellsOf.
    destruct (cellSource gridImages r c) as [[imgSrc|]|]; cbn [flat_map];
      try (split; [cbn; lia | intros H; now contradiction H]).
    rewrite app_nil_r. split; [apply cellPaints_length | apply cellPaints_inCell]. }
  assert (Hrow : forall r,
             (List.length (flat_map cellPaints (flat_map (cellsOf gridImages r) (seq 0 cols)))
              <= 1)%nat /\
             (flat_map cellPaints (flat_map (cellsOf gridImages r) (seq 0 cols)) <> [] ->
              inCell padding cellHeight r Y)).
  { intros r. rewrite flat_map_flat_map. split.
    - apply flat_map_single; [apply seq_NoDup | intros c _; apply Hcell |].
      intros c c' _ _ Hc Hc'. apply Hcell in Hc, Hc'.
      apply (inCell_unique padding cellWidth c c' X); tauto.
    - intros Hne.
      destruct (flat_map (fun c => flat_map cellPaints (cellsOf gridImages r c)) (seq 0 cols))
        as [|paint rest] eqn:E; [now contradiction Hne|].
      assert (Hin : In paint
                (flat_map (fun c => flat_map cellPaints (cellsOf gridImages r c)) (seq 0 cols)))
        by (rewrite E; now left).
      apply in_flat_map in Hin as (c & _ & Hin).
      apply (Hcell r c). intros E'. rewrite E' in Hin. destruct Hin. }
  apply flat_map_single; [apply seq_NoDup | intros r _; apply Hrow |].
  intros r r' _ _ Hr Hr'. apply Hrow in Hr, Hr'.
  apply (inCell_unique padding cellHeight r r' Y); assumption.
Qed.

(** With a padding that is not negative, the picture [mixImages] composes
    does not depend on the order in which the images of the cells finish
    loading: settling the pending loads in any order puts the same paints
    on every pixel. *)
Theorem mixImages_any_order (gridImages : GridState) (cols rows : nat)
    (W H : Z) (padding : Q) (backgroundColor : string) :
  (forall c, getContext2d c = true) -> cssColor backgroundColor = true ->
  Grid rows cols gridImages ->
  (0 <= W <= 2147483647)%Z -> (0 <= H <= 2147483647)%Z ->
  0 <= padding ->
  0 < inject_Z W - padding * (inject_Z (Z.of_nat cols) + 1) ->
  0 < inject_Z H - padding * (inject_Z (Z.of_nat rows) + 1) ->
  exists canvas promises,
    mixCanvas gridImages cols rows (inject_Z W) (inject_Z H) padding backgroundColor
      = Ok canvas /\
    pending gridImages cols rows = Ok promises /\
    forall settled, Permutation settled promises ->
    forall X Y,
      Canvas.paintsAt
        (fold_left
           (drawCell padding
              ((inject_Z W - padding * (inject_Z (Z.of_nat cols) + 1))
               / inject_Z (Z.of_nat cols))
              ((inject_Z H - padding * (inject_Z (Z.of_nat rows) + 1))
               / inject_Z (Z.of_nat rows)))
           settled (backdrop W H backgroundColor))
        X Y
      = Canvas.paintsAt canvas X Y.
Proof.
  intros Hctx Hcss [Hrows _] HW HH Hp HcW HcH.
  rewrite mixCanvas_start by assumption. cbv zeta.
  set (contentWidth := inject_Z W - padding * (inject_Z (Z.of_nat cols) + 1)) in *.
  set (contentHeight := inject_Z H - padding * (inject_Z (Z.of_nat rows) + 1)) in *.
  set (cellWidth := contentWidth / inject_Z (Z.of_nat cols)).
  set (cellHeight := contentHeight / inject_Z (Z.of_nat rows)).
  replace (JS.leb contentWidth 0 || JS.leb contentHeight 0) with false
    by (symmetry; apply orb_false_iff; split; apply JS.leb_gt; assumption).
  rewrite pending_cells by lia. cbn [bind].
  set (promises :=
         flat_map (fun r => flat_map (cellsOf gridImages r) (seq 0 cols)) (seq 0 rows)).
  exists (fold_left (drawCell padding cellWidth cellHeight) promises
            (backdrop W H backgroundColor)), promises.
  split; [reflexivity|]. split; [reflexivity|].
  intros settled Hperm X Y.
  rewrite !drawCells_canvas by reflexivity.
  unfold Canvas.paintsAt. cbn [Canvas.width Canvas.height Canvas.layers backdrop].
  destruct (Bitmap.inside W H X Y); [|reflexivity].
  change (fun l => match Canvas.layerPaint l X Y with Some p => [p] | None => [] end)
    with (layerPaints X Y).
  rewrite !flat_map_app. f_equal.
  assert (Hw : 0 <= cellWidth).
  { unfold cellWidth. destruct cols as [|k].
    - unfold Qdiv. change (/ inject_Z (Z.of_nat 0)) with 0. lra.
    - apply Qlt_le_weak, Qlt_shift_div_l; [|lra].
      pose proof (inject_nat_succ_le 0 (S k) ltac:(lia)). change (inject_Z (Z.of_nat 0)) with 0 in *.
      lra. }
  assert (Hh : 0 <= cellHeight).
  { unfold cellHeight. destruct rows as [|k].
    - unfold Qdiv. change (/ inject_Z (Z.of_nat 0)) with 0. lra.
    - apply Qlt_le_weak, Qlt_shift_div_l; [|lra].
      pose proof (inject_nat_succ_le 0 (S k) ltac:(lia)). change (inject_Z (Z.of_nat 0)) with 0 in *.
      lra. }
  apply Permutation_short.
  - apply Permutation_flat_map, Permutation_rev', Permutation_flat_map, Hperm.
  - rewrite <- (Permutation_length
                  (Permutation_flat_map (layerPaints X Y)
                     (Permutation_rev (flat_map (cellLayer padding cellWidth cellHeight) promises)))).
    now apply pending_paints_single.
Qed.

(** *** A grid with too few rows *)

Lemma forEach_app {S : Type} (l1 l2 : list nat) (body : nat -> S -> Result S) (s : S) :
  forEach (l1 ++ l2) body s = let* s' := forEach l1 body s in forEach l2 body s'.
Proof.
  revert s. induction l1 as [|i l1 IH]; intros s; cbn [forEach app bind]; [reflexivity|].
  destruct (body i s); cbn [bind]; [apply IH | reflexivity].
Qed.

Lemma rows_loop (gridImages : GridState) (cols : nat) (indices : list nat)
    (promises : list (string * nat * nat)) :
  (forall r, In r indices -> (r < List.length gridImages)%nat) ->
  forEach indices
    (fun r promises =>
       forEach (seq 0 cols)
         (fun c promises =>
            let* imgSrc := cellSource gridImages r c in
            Ok (match imgSrc with
                | Some imgSrc => promises ++ [(imgSrc, r, c)]
                | None => promises
                end))
         promises)
    promises
  = Ok (promises ++
        flat_map (fun r => flat_map (cellsOf gridImages r) (seq 0 cols)) indices).
Proof.
  revert promises. induction indices as [|r rest IH]; intros promises Hin;
    cbn [forEach flat_map].
  - now rewrite app_nil_r.
  - rewrite columns_loop by (apply Hin; now left). cbn [bind].
    rewrite IH by (intros; apply Hin; now right).
    now rewrite <- app_assoc.
Qed.

Lemma pending_short (gridImages : GridState) (cols rows : nat) :
  (List.length gridImages < rows)%nat -> (0 < cols)%nat ->
  pending gridImages cols rows = Throw TypeError.
Proof.
  intros Hrows Hcols. unfold pending.
  replace rows with (List.length gridImages + (rows - List.length gridImages))%nat by lia.
  rewrite seq_app, forEach_app.
  rewrite rows_loop by (intros r Hr; apply in_seq in Hr; lia). cbn [bind].
  destruct (rows - List.length gridImages)%nat as [|k] eqn:E; [lia|].
  destruct cols as [|j]; [lia|].
  cbn [seq forEach]. unfold cellSource at 1.
  replace (nth_error gridImages (0 + List.length gridImages)) with (@None (list (option string)))
    by (symmetry; apply nth_error_None; lia).
  reflexivity.
Qed.

(** When the grid has fewer rows than [rows] says (and there is room for
    cells and at least one column), [mixImages] fails with the TypeError of
    reading a cell of a row that does not exist, whatever the rows that do
    exist hold. *)
Theorem mixImages_short_grid (gridImages : GridState) (cols rows : nat)
    (W H : Z) (padding : Q) (backgroundColor : string) :
  (forall c, getContext2d c = true) -> cssColor backgroundColor = true ->
  (0 <= W <= 2147483647)%Z -> (0 <= H <= 2147483647)%Z ->
  0 < inject_Z W - padding * (inject_Z (Z.of_nat cols) + 1) ->
  0 < inject_Z H - padding * (inject_Z (Z.of_nat rows) + 1) ->
  (List.length gridImages < rows)%nat -> (0 < cols)%nat ->
  mixImages gridImages cols rows (inject_Z W) (inject_Z H) padding backgroundColor
  = Throw TypeError.
Proof.
  intros Hctx Hcss HW HH HcW HcH Hrows Hcols.
  unfold mixImages. rewrite mixCanvas_start by assumption. cbv zeta.
  replace (JS.leb _ 0 || JS.leb _ 0) with false
    by (symmetry; apply orb_false_iff; split; apply JS.leb_gt; assumption).
  now rewrite pending_short.
Qed.

(** *** [manualCrop] *)

(** For a crop box of whole coordinates and positive size, [manualCrop]
    encodes a canvas of the size of the box that shows, at [(X,Y)], the
    pixel of the image at [(x + X, y + Y)] (transparent where the box
    reaches beyond the image). *)
Theorem manualCrop_shows_box (imageDataUrl : string) (img : Bitmap.Image)
    (x y w h : Z) :
  Canvas.lossless composite ->
  (forall c, getContext2d c = true) ->
  decode imageDataUrl = Some img ->
  (0 < w <= 2147483647)%Z -> (0 < h <= 2147483647)%Z ->
  exists canvas,
    manualCrop imageDataUrl
      (Cropper.mkBox (inject_Z x) (inject_Z y) (inject_Z w) (inject_Z h))
    = Ok (toDataURL canvas) /\
    Canvas.width canvas = w /\ Canvas.height canvas = h /\
    forall X Y, (0 <= X < w)%Z -> (0 <= Y < h)%Z ->
      Canvas.pixelAt composite canvas X Y = Bitmap.pixel img (x + X) (y + Y).
Proof.
  intros Hexact Hctx Hdec Hw Hh.
  unfold manualCrop, manualCropCanvas, loadImage. rewrite Hdec. cbn [bind].
  unfold getContext. rewrite Hctx. cbn [bind].
  unfold Canvas.drawImage9, Canvas.paint, Canvas.setHeight, Canvas.setWidth,
    Canvas.createElement.
  cbn [Cropper.x Cropper.y Cropper.width Cropper.height
       Canvas.width Canvas.height Canvas.fillStyle Canvas.transform Canvas.layers].
  rewrite !Canvas.dimension_inject by lia.
  eexists. split; [reflexivity|].
  cbn [Canvas.width Canvas.height].
  split; [reflexivity|]. split; [reflexivity|].
  intros X Y HX HY.
  pose proof (Canvas.inject_nonneg X ltac:(lia)).
  pose proof (Canvas.inject_succ_le X w ltac:(lia)).
  pose proof (Canvas.inject_nonneg Y ltac:(lia)).
  pose proof (Canvas.inject_succ_le Y h ltac:(lia)).
  eapply Canvas.pixelAt_single; try eassumption; try reflexivity;
    cbn [Canvas.width Canvas.height Canvas.identity Canvas.t_a Canvas.t_d Canvas.t_e
         Canvas.t_f];
    try lia; rewrite Canvas.unmap_identity;
    try (split; lra); apply crop_axis; lia.
Qed.

(** *** Flips in both directions *)

(** Canvases of one size that agree on every pixel have the same bitmap. *)
Lemma bitmap_ext (c1 c2 : Canvas.Canvas) :
  Canvas.width c1 = Canvas.width c2 -> Canvas.height c1 = Canvas.height c2 ->
  (0 <= Canvas.width c1)%Z -> (0 <= Canvas.height c1)%Z ->
  (forall X Y, (0 <= X < Canvas.width c1)%Z -> (0 <= Y < Canvas.height c1)%Z ->
     Canvas.pixelAt composite c1 X Y = Canvas.pixelAt composite c2 X Y) ->
  Canvas.bitmap composite c1 = Canvas.bitmap composite c2.
Proof.
  intros Ew Eh Hw Hh Hpix. unfold Canvas.bitmap, Canvas.getImageData.
  rewrite <- Ew, <- Eh. f_equal.
  rewrite !flat_map_concat_map. f_equal. apply map_ext_in.
  intros i Hi. apply Canvas.range_In in Hi. f_equal.
  assert (0 < Canvas.width c1)%Z by nia.
  apply Hpix.
  - apply Z.mod_pos_bound. lia.
  - split; [apply Z.div_pos; lia | apply Z.div_lt_upper_bound; lia].
Qed.

(** Two flips in a row, the second of the decoded result of the first. *)
Lemma flip_then_flip (imageDataUrl : string) (first second : Direction)
    (img : Bitmap.Image) :
  Canvas.lossless composite ->
  (forall i, Bitmap.valid i -> decode (encode i) = Some i) ->
  (forall c, getContext2d c = true) ->
  decode imageDataUrl = Some img -> Bitmap.valid img ->
  exists c1 c2,
    flipCanvas imageDataUrl first = Ok c1 /\
    flipCanvas (toDataURL c1) second = Ok c2 /\
    Canvas.width c2 = Bitmap.width img /\ Canvas.height c2 = Bitmap.height img /\
    forall X Y, (0 <= X < Bitmap.width img)%Z -> (0 <= Y < Bitmap.height img)%Z ->
      let at2 := mirrored second img X Y in
      let at1 := mirrored first img (fst at2) (snd at2) in
      Canvas.pixelAt composite c2 X Y = Bitmap.pixel img (fst at1) (snd at1).
Proof.
  intros Hexact Hcodec Hctx Hdec Hvalid.
  destruct (flipCanvas_mirrors imageDataUrl first img Hexact Hctx Hdec Hvalid)
    as (c1 & Hc1 & Hw1 & Hh1 & Hpix1).
  set (img1 := Canvas.bitmap composite c1).
  assert (Hvalid1 : Bitmap.valid img1).
  { unfold Bitmap.valid, img1. cbn [Canvas.bitmap Bitmap.width Bitmap.height].
    rewrite Hw1, Hh1. exact Hvalid. }
  pose proof (Hcodec img1 Hvalid1) as Hdec1.
  destruct (flipCanvas_mirrors (encode img1) second img1 Hexact Hctx Hdec1 Hvalid1)
    as (c2 & Hc2 & Hw2 & Hh2 & Hpix2).
  assert (Hw12 : Bitmap.width img1 = Bitmap.width img) by exact Hw1.
  assert (Hh12 : Bitmap.height img1 = Bitmap.height img) by exact Hh1.
  exists c1, c2. split; [exact Hc1|]. split; [exact Hc2|].
  split; [congruence|]. split; [congruence|].
  intros X Y HX HY. cbv zeta. rewrite Hpix2 by lia. unfold img1.
  destruct second; cbn [mirrored fst snd Canvas.bitmap Bitmap.width Bitmap.height];
    rewrite Canvas.bitmap_pixel by lia; rewrite Hpix1 by lia;
    rewrite ?Hw1, ?Hh1; reflexivity.
Qed.

(** Flipping horizontally and then vertically gives the very data URL that
    flipping vertically and then horizontally gives: the image turned by
    180 degrees. *)
Theorem flipImage_commute (imageDataUrl : string) (img : Bitmap.Image) :
  Canvas.lossless composite ->
  (forall i, Bitmap.valid i -> decode (encode i) = Some i) ->
  (forall c, getContext2d c = true) ->
  decode imageDataUrl = Some img -> Bitmap.valid img ->
  exists flippedH flippedV both turned,
    flipImage imageDataUrl horizontal = Ok flippedH /\
    flipImage flippedH vertical = Ok both /\
    flipImage imageDataUrl vertical = Ok flippedV /\
    flipImage flippedV horizontal = Ok both /\
    decode both = Some turned /\
    Bitmap.width turned = Bitmap.width img /\
    Bitmap.height turned = Bitmap.height img /\
    forall X Y, (0 <= X < Bitmap.width img)%Z -> (0 <= Y < Bitmap.height img)%Z ->
      Bitmap.pixel turned X Y
      = Bitmap.pixel img (Bitmap.width img - 1 - X) (Bitmap.height img - 1 - Y).
Proof.
  intros Hexact Hcodec Hctx Hdec Hvalid.
  destruct (flip_then_flip imageDataUrl horizontal vertical img
              Hexact Hcodec Hctx Hdec Hvalid)
    as (h1 & hv & Hh1 & Hhv & Hw & Hh & Hpix).
  destruct (flip_then_flip imageDataUrl vertical horizontal img
              Hexact Hcodec Hctx Hdec Hvalid)
    as (v1 & vh & Hv1 & Hvh & Hw' & Hh' & Hpix').
  cbn [mirrored fst snd] in Hpix, Hpix'.
  assert (Esame : Canvas.bitmap composite hv = Canvas.bitmap composite vh).
  { destruct Hvalid. apply bitmap_ext; try lia.
    intros X Y HX HY. rewrite Hpix, Hpix' by lia. f_equal; lia. }
  assert (Hvalid2 : Bitmap.valid (Canvas.bitmap composite hv)).
  { unfold Bitmap.valid. cbn [Canvas.bitmap Bitmap.width Bitmap.height].
    rewrite Hw, Hh. exact Hvalid. }
  exists (toDataURL h1), (toDataURL v1), (toDataURL hv), (Canvas.bitmap composite hv).
  assert (Eurl : toDataURL vh = toDataURL hv) by (unfold toDataURL; now rewrite Esame).
  unfold flipImage. rewrite Hh1, Hv1. cbn [bind]. rewrite Hhv, Hvh. cbn [bind].
  rewrite Eurl.
  split; [reflexivity|]. split; [reflexivity|]. split; [reflexivity|].
  split; [reflexivity|]. split; [now apply Hcodec|].
  split; [exact Hw|]. split; [exact Hh|].
  intros X Y HX HY. rewrite Canvas.bitmap_pixel by lia. rewrite Hpix by lia.
  f_equal; lia.
Qed.

(** *** Cropping what is already cropped *)

(** The canvas [autoCrop] scans. *)
Definition scanCanvas (img : Bitmap.Image) : Canvas.Canvas :=
  Canvas.mkCanvas (Bitmap.width img) (Bitmap.height img) "#000000" Canvas.identity
    [Canvas.DrawImage img Canvas.identity
       0 0 (inject_Z (Bitmap.width img)) (inject_Z (Bitmap.height img))
       0 0 (inject_Z (Bitmap.width img)) (inject_Z (Bitmap.height img))].

Lemma scanCanvas_content (img : Bitmap.Image) (cropColor : option Rgb) (tolerance : Q)
    (X Y : Z) :
  Canvas.lossless composite ->
  (0 <= X < Bitmap.width img)%Z -> (0 <= Y < Bitmap.height img)%Z ->
  content (Canvas.getImageData composite (scanCanvas img)) (Bitmap.width img)
          cropColor tolerance X Y
  = isContent cropColor tolerance (Bitmap.pixel img X Y).
Proof.
  intros Hexact HX HY.
  change (Bitmap.width img) with (Canvas.width (scanCanvas img)) at 1.
  now apply (scanned_content img).
Qed.

(** Either no pixel of an image is content or one is. *)
Lemma content_decided (img : Bitmap.Image) (cropColor : option Rgb) (tolerance : Q) :
  Canvas.lossless composite ->
  (forall X Y, (0 <= X < Bitmap.width img)%Z -> (0 <= Y < Bitmap.height img)%Z ->
     isContent cropColor tolerance (Bitmap.pixel img X Y) = false) \/
  (exists X Y, (0 <= X < Bitmap.width img)%Z /\ (0 <= Y < Bitmap.height img)%Z /\
     isContent cropColor tolerance (Bitmap.pixel img X Y) = true).
Proof.
  intros Hexact.
  destruct (scan_scanned (Canvas.getImageData composite (scanCanvas img))
              (Bitmap.width img) (Bitmap.height img) cropColor tolerance)
    as (Hall & _ & [E|(y & Hin & Hc)] & _).
  - left. intros X Y HX HY.
    rewrite <- scanCanvas_content by assumption.
    apply not_true_is_false. intros Hc.
    destruct (Hall X Y) as [HbX _]; [now apply positions_In | exact Hc | lia].
  - right. apply positions_In in Hin as [HX HY].
    rewrite scanCanvas_content in Hc by assumption. eauto.
Qed.

Lemma cropCanvas_nothing (imageDataUrl : string) (cropColorHex : option string)
    (tolerance : option Q) (img : Bitmap.Image) :
  Canvas.lossless composite ->
  (forall c, getContext2d c = true) ->
  decode imageDataUrl = Some img -> Bitmap.valid img ->
  (forall X Y, (0 <= X < Bitmap.width img)%Z -> (0 <= Y < Bitmap.height img)%Z ->
     isContent (cropColorOf cropColorHex)
       (match tolerance with Some t => t | None => 20 end) (Bitmap.pixel img X Y) = false) ->
  cropCanvas imageDataUrl cropColorHex tolerance = Ok None.
Proof.
  intros Hexact Hctx Hdec Hvalid Hnone.
  unfold cropCanvas, loadImage. rewrite Hdec. cbn [bind].
  rewrite sourceCanvas_value by assumption. cbn [bind]. fold (scanCanvas img).
  change (Canvas.width (scanCanvas img)) with (Bitmap.width img).
  change (Canvas.height (scanCanvas img)) with (Bitmap.height img).
  rewrite scan_nothing; [reflexivity|].
  intros X Y HX HY. rewrite scanCanvas_content by assumption. now apply Hnone.
Qed.

Lemma cropCanvas_content (imageDataUrl : string) (cropColorHex : option string)
    (tolerance : option Q) (img : Bitmap.Image) :
  Canvas.lossless composite ->
  (forall c, getContext2d c = true) ->
  decode imageDataUrl = Some img -> Bitmap.valid img ->
  (exists X Y, (0 <= X < Bitmap.width img)%Z /\ (0 <= Y < Bitmap.height img)%Z /\
     isContent (cropColorOf cropColorHex)
       (match tolerance with Some t => t | None => 20 end) (Bitmap.pixel img X Y) = true) ->
  exists bd canvas,
    bounding (fun X Y =>
                isContent (cropColorOf cropColorHex)
                  (match tolerance with Some t => t | None => 20 end) (Bitmap.pixel img X Y))
             (Bitmap.width img) (Bitmap.height img) bd /\
    cropCanvas imageDataUrl cropColorHex tolerance = Ok (Some canvas) /\
    Canvas.width canvas = (maxX bd - minX bd + 1)%Z /\
    Canvas.height canvas = (maxY bd - minY bd + 1)%Z /\
    forall X Y,
      (0 <= X < Canvas.width canvas)%Z -> (0 <= Y < Canvas.height canvas)%Z ->
      Canvas.pixelAt composite canvas X Y = Bitmap.pixel img (minX bd + X) (minY bd + Y).
Proof.
  intros Hexact Hctx Hdec Hvalid (X0 & Y0 & HX0 & HY0 & Hc0).
  set (t := match tolerance with Some t => t | None => 20 end) in *.
  set (data := Canvas.getImageData composite (scanCanvas img)).
  set (bd := scan data (Bitmap.width img) (Bitmap.height img) (cropColorOf cropColorHex) t).
  destruct (scan_bounding data (Bitmap.width img) (Bitmap.height img)
              (cropColorOf cropColorHex) t) as [Hbd Hfound].
  { exists X0, Y0. unfold data. rewrite scanCanvas_content by assumption.
    repeat split; (lia || exact Hc0). }
  fold bd in Hbd, Hfound.
  apply (bounding_ext _ (fun X Y => isContent (cropColorOf cropColorHex) t
                                      (Bitmap.pixel img X Y))) in Hbd;
    [|intros X Y HX HY; unfold data; now apply scanCanvas_content].
  pose proof Hbd as (Hall & (ya & Hxa & _) & (yb & Hxb & _) & (xa & _ & Hya & _)
                     & (xb & _ & Hyb & _)).
  destruct (Hall X0 Y0 HX0 HY0 Hc0) as [HbX HbY].
  pose proof Hvalid as [Hw Hh].
  exists bd. eexists. split; [exact Hbd|].
  unfold cropCanvas, loadImage. rewrite Hdec. cbn [bind].
  rewrite sourceCanvas_value by assumption. cbn [bind]. fold (scanCanvas img).
  change (Canvas.width (scanCanvas img)) with (Bitmap.width img).
  change (Canvas.height (scanCanvas img)) with (Bitmap.height img).
  fold data. fold t. fold bd.
  replace (maxX bd =? -1)%Z with false by (symmetry; now apply Z.eqb_neq).
  unfold getContext. rewrite Hctx. cbn [bind].
  split; [reflexivity|].
  unfold Canvas.drawImage9, Canvas.paint, Canvas.setHeight, Canvas.setWidth,
    Canvas.createElement.
  cbn [Canvas.width Canvas.height Canvas.fillStyle Canvas.transform Canvas.layers].
  rewrite !Canvas.dimension_inject by lia.
  split; [reflexivity|]. split; [reflexivity|].
  intros X Y HX HY.
  pose proof (Canvas.inject_nonneg X ltac:(lia)).
  pose proof (Canvas.inject_succ_le X (maxX bd - minX bd + 1) ltac:(lia)).
  pose proof (Canvas.inject_nonneg Y ltac:(lia)).
  pose proof (Canvas.inject_succ_le Y (maxY bd - minY bd + 1) ltac:(lia)).
  rewrite (Canvas.pixelAt_single composite _ (Canvas.bitmap composite (scanCanvas img))
             Canvas.identity
             (inject_Z (minX bd)) (inject_Z (minY bd))
             (inject_Z (maxX bd - minX bd + 1)) (inject_Z (maxY bd - minY bd + 1))
             0 0
             (inject_Z (maxX bd - minX bd + 1)) (inject_Z (maxY bd - minY bd + 1))
             X Y (minX bd + X) (minY bd + Y));
    try assumption; try reflexivity;
    cbn [Canvas.identity Canvas.t_a Canvas.t_d Canvas.t_e Canvas.t_f];
    try rewrite Canvas.unmap_identity; try (split; lra);
    try (apply crop_axis; lia).
  rewrite Canvas.bitmap_pixel by (cbn [scanCanvas Canvas.width Canvas.height]; lia).
  apply Canvas.pixelAt_copy; try assumption; try reflexivity;
    cbn [scanCanvas Canvas.width Canvas.height]; lia.
Qed.

(** [autoCrop] is idempotent: cropping its own result again, with the same
    crop colour and tolerance, returns that result unchanged. *)
Theorem autoCrop_idempotent (imageDataUrl : string) (cropColorHex : option string)
    (tolerance : option Q) (img : Bitmap.Image) :
  Canvas.lossless composite ->
  (forall i, Bitmap.valid i -> decode (encode i) = Some i) ->
  (forall c, getContext2d c = true) ->
  decode imageDataUrl = Some img -> Bitmap.valid img ->
  exists cropped,
    autoCrop imageDataUrl cropColorHex tolerance = Ok cropped /\
    autoCrop cropped cropColorHex tolerance = Ok cropped.
Proof.
  intros Hexact Hcodec Hctx Hdec Hvalid.
  set (t := match tolerance with Some t => t | None => 20 end).
  set (cc := cropColorOf cropColorHex).
  destruct (content_decided img cc t Hexact) as [Hnone|Hsome].
  - exists imageDataUrl. unfold autoCrop.
    rewrite (cropCanvas_nothing imageDataUrl cropColorHex tolerance img) by assumption.
    split; reflexivity.
  - destruct (cropCanvas_content imageDataUrl cropColorHex tolerance img
                Hexact Hctx Hdec Hvalid Hsome)
      as (bd & c1 & Hbd & Hcrop1 & Hw1 & Hh1 & Hpix1).
    fold t in Hbd. fold cc in Hbd.
    pose proof Hbd as (Hall & (ya & Hxa & Hya & Hca) & (yb & Hxb & Hyb & Hcb)
                       & (xa & Hxa' & Hya' & Hca') & (xb & Hxb' & Hyb' & Hcb')).
    destruct (Hall _ _ Hxa Hya Hca) as [_ HYa].
    destruct (Hall _ _ Hxb Hyb Hcb) as [_ HYb].
    destruct (Hall _ _ Hxa' Hya' Hca') as [HXa _].
    destruct (Hall _ _ Hxb' Hyb' Hcb') as [HXb _].
    destruct Hvalid as [Hw Hh].
    set (img1 := Canvas.bitmap composite c1).
    assert (Ew1 : Bitmap.width img1 = (maxX bd - minX bd + 1)%Z) by exact Hw1.
    assert (Eh1 : Bitmap.height img1 = (maxY bd - minY bd + 1)%Z) by exact Hh1.
    assert (Hvalid1 : Bitmap.valid img1) by (unfold Bitmap.valid; lia).
    assert (Hpix : forall X Y,
               (0 <= X < Bitmap.width img1)%Z -> (0 <= Y < Bitmap.height img1)%Z ->
               Bitmap.pixel img1 X Y = Bitmap.pixel img (minX bd + X) (minY bd + Y)).
    { intros X Y HX HY. unfold img1. rewrite Canvas.bitmap_pixel by lia.
      apply Hpix1; lia. }
    assert (Hat : forall X Y,
               (minX bd <= X <= maxX bd)%Z -> (minY bd <= Y <= maxY bd)%Z ->
               isContent cc t (Bitmap.pixel img X Y) = true ->
               (0 <= X - minX bd < Bitmap.width img1)%Z /\
               (0 <= Y - minY bd < Bitmap.height img1)%Z /\
               isContent cc t (Bitmap.pixel img1 (X - minX bd) (Y - minY bd)) = true).
    { intros X Y HX HY Hc. split; [lia|]. split; [lia|].
      rewrite Hpix by lia.
      replace (minX bd + (X - minX bd))%Z with X by lia.
      replace (minY bd + (Y - minY bd))%Z with Y by lia. exact Hc. }
    destruct (cropCanvas_content (encode img1) cropColorHex tolerance img1
                Hexact Hctx (Hcodec img1 Hvalid1) Hvalid1)
      as (bd2 & c2 & Hbd2 & Hcrop2 & Hw2 & Hh2 & Hpix2).
    { destruct (Hat (minX bd) ya ltac:(lia) HYa Hca) as (? & ? & ?). eauto 6. }
    fold t in Hbd2. fold cc in Hbd2.
    destruct Hbd2 as (Hall2 & (_ & Hx0 & _) & (_ & Hx1 & _) & (_ & _ & Hy0 & _)
                      & (_ & _ & Hy1 & _)).
    destruct (Hat (minX bd) ya ltac:(lia) HYa Hca) as (A1 & A2 & A3).
    destruct (Hat (maxX bd) yb ltac:(lia) HYb Hcb) as (B1 & B2 & B3).
    destruct (Hat xa (minY bd) HXa ltac:(lia) Hca') as (C1 & C2 & C3).
    destruct (Hat xb (maxY bd) HXb ltac:(lia) Hcb') as (D1 & D2 & D3).
    destruct (Hall2 _ _ A1 A2 A3) as [? _]. destruct (Hall2 _ _ B1 B2 B3) as [? _].
    destruct (Hall2 _ _ C1 C2 C3) as [_ ?]. destruct (Hall2 _ _ D1 D2 D3) as [_ ?].
    assert (E0 : minX bd2 = 0%Z) by lia. assert (E1 : minY bd2 = 0%Z) by lia.
    assert (Esame : Canvas.bitmap composite c2 = img1).
    { unfold img1. apply bitmap_ext; try lia.
      intros X Y HX HY. rewrite Hpix2 by assumption. rewrite E0, E1.
      unfold img1. rewrite Canvas.bitmap_pixel by lia. f_equal; lia. }
    exists (encode img1). unfold autoCrop. rewrite Hcrop1, Hcrop2. cbn [bind].
    unfold toDataURL. fold img1. rewrite Esame. split; reflexivity.
Qed.

(** *** An image that already fits *)

(** An image that already has the target ratio, and neither side above
    1500 pixels, is letterboxed onto a canvas of its own size, drawn
    unscaled at the origin: nothing is added around it. *)
Theorem letterboxImage_fitting (imageDataUrl : string) (img : Bitmap.Image)
    (targetAspectRatio : Q) (backgroundColor : option string) :
  (forall c, getContext2d c = true) ->
  decode imageDataUrl = Some img ->
  (0 < Bitmap.width img <= 1500)%Z -> (0 < Bitmap.height img <= 1500)%Z ->
  targetAspectRatio == inject_Z (Bitmap.width img) / inject_Z (Bitmap.height img) ->
  exists canvas offsetX offsetY scaledImgWidth scaledImgHeight,
    letterboxImage imageDataUrl targetAspectRatio backgroundColor = Ok (toDataURL canvas) /\
    Canvas.width canvas = Bitmap.width img /\
    Canvas.height canvas = Bitmap.height img /\
    drawn canvas img offsetX offsetY scaledImgWidth scaledImgHeight /\
    offsetX == 0 /\ offsetY == 0 /\
    scaledImgWidth == inject_Z (Bitmap.width img) /\
    scaledImgHeight == inject_Z (Bitmap.height img).
Proof.
  intros Hctx Hdec Hw Hh HR.
  assert (Hw' : 0 < inject_Z (Bitmap.width img))
    by (change 0 with (inject_Z 0); rewrite <- Zlt_Qlt; lia).
  assert (Hh' : 0 < inject_Z (Bitmap.height img))
    by (change 0 with (inject_Z 0); rewrite <- Zlt_Qlt; lia).
  assert (Hw15 : inject_Z (Bitmap.width img) <= 1500)
    by (change 1500 with (inject_Z 1500); rewrite <- Zle_Qle; lia).
  assert (Hh15 : inject_Z (Bitmap.height img) <= 1500)
    by (change 1500 with (inject_Z 1500); rewrite <- Zle_Qle; lia).
  assert (HRpos : 0 < targetAspectRatio)
    by (rewrite HR; apply Qlt_shift_div_l; lra).
  pose proof (letterboxCanvas_layout imageDataUrl img targetAspectRatio backgroundColor
                Hctx Hdec ltac:(lia) ltac:(lia) HRpos) as Hlayout.
  cbv zeta in Hlayout.
  set (size := letterboxSize img targetAspectRatio) in *.
  set (scale := letterboxScale size) in *.
  set (w := inject_Z (Bitmap.width img)) in *.
  set (h := inject_Z (Bitmap.height img)) in *.
  assert (Esize : fst size == w /\ snd size == h).
  { unfold size, letterboxSize. fold w h.
    destruct (JS.gtb (w / h) targetAspectRatio) eqn:E; cbn [fst snd].
    - apply JS.ltb_lt in E. lra.
    - split; [|reflexivity]. rewrite HR. field. lra. }
  destruct Esize as [Ecw Ech].
  assert (Escale : scale == 1).
  { unfold scale, letterboxScale. apply Q.min_r. apply Q.min_glb.
    - apply Qle_shift_div_l; lra.
    - apply Qle_shift_div_l; lra. }
  assert (EW : Qfloor (fst size * scale) = Bitmap.width img).
  { rewrite <- (Qfloor_Z (Bitmap.width img)). apply Qfloor_comp.
    fold w. rewrite Ecw, Escale. ring. }
  assert (EH : Qfloor (snd size * scale) = Bitmap.height img).
  { rewrite <- (Qfloor_Z (Bitmap.height img)). apply Qfloor_comp.
    fold h. rewrite Ech, Escale. ring. }
  unfold letterboxImage. rewrite Hlayout. cbn [bind].
  do 5 eexists. split; [reflexivity|]. cbn [Canvas.width Canvas.height].
  split; [exact EW|]. split; [exact EH|].
  split; [unfold drawn; cbn [Canvas.layers]; now left|].
  rewrite EW, EH. fold w h. rewrite Escale.
  repeat split; field.
Qed.

(** *** What [hexToRgb] accepts *)

Lemma hexDigit_range (ch : ascii) (d : Z) : hexDigit ch = Some d -> (0 <= d <= 15)%Z.
Proof.
  unfold hexDigit.
  destruct ((48 <=? _) && (_ <=? 57))%Z eqn:E1.
  - intros [= <-]. apply andb_true_iff in E1 as [H1 H2]. lia.
  - destruct ((97 <=? _) && (_ <=? 102))%Z eqn:E2.
    + intros [= <-]. apply andb_true_iff in E2 as [H1 H2]. lia.
    + destruct ((65 <=? _) && (_ <=? 70))%Z eqn:E3; [|discriminate].
      intros [= <-]. apply andb_true_iff in E3 as [H1 H2]. lia.
Qed.

Lemma hexPair_range (hi lo : ascii) (v : Z) : hexPair hi lo = Some v -> (0 <= v <= 255)%Z.
Proof.
  unfold hexPair.
  destruct (hexDigit hi) as [h|] eqn:Eh; [|discriminate].
  destruct (hexDigit lo) as [l|] eqn:El; [|discriminate].
  intros Hv. assert (E : v = (16 * h + l)%Z) by congruence.
  apply hexDigit_range in Eh. apply hexDigit_range in El. lia.
Qed.

Lemma hexDigits_range (digits : string) (color : Rgb) :
  match digits with
  | String r1 (String r2 (String g1 (String g2 (String b1 (String b2 EmptyString))))) =>
      match hexPair r1 r2, hexPair g1 g2, hexPair b1 b2 with
      | Some r, Some g, Some b => Some (mkRgb r g b)
      | _, _, _ => None
      end
  | _ => None
  end = Some color ->
  String.length digits = 6%nat /\
  (0 <= r color <= 255)%Z /\ (0 <= g color <= 255)%Z /\ (0 <= b color <= 255)%Z.
Proof.
  destruct digits as [|r1 [|r2 [|g1 [|g2 [|b1 [|b2 [|? ?]]]]]]]; try discriminate.
  destruct (hexPair r1 r2) as [rv|] eqn:Er; [|discriminate].
  destruct (hexPair g1 g2) as [gv|] eqn:Eg; [|discriminate].
  destruct (hexPair b1 b2) as [bv|] eqn:Eb; [|discriminate].
  intros [= <-]. cbn [r g b String.length].
  apply hexPair_range in Er. apply hexPair_range in Eg. apply hexPair_range in Eb.
  repeat split; lia.
Qed.

(** [hexToRgb] accepts only six hexadecimal digits with at most a leading
    hash sign (so neither the short form "#fff" nor a colour name), and
    every channel it answers lies between 0 and 255. *)
Theorem hexToRgb_range (hex : string) (color : Rgb) :
  hexToRgb hex = Some color ->
  (String.length hex = 6%nat \/ String.length hex = 7%nat) /\
  (0 <= r color <= 255)%Z /\ (0 <= g color <= 255)%Z /\ (0 <= b color <= 255)%Z.
Proof.
  unfold hexToRgb. intros H. cbv zeta in H.
  set (digits := match hex with String "#" rest => rest | _ => hex end) in H.
  assert (Hlen : String.length hex = String.length digits \/
                 String.length hex = S (String.length digits)).
  { unfold digits. destruct hex as [|ch rest]; [now left|].
    destruct (Ascii.ascii_dec ch "#") as [->|Hne]; [now right|left].
    destruct ch as [[] [] [] [] [] [] [] []]; try reflexivity. now contradiction Hne. }
  apply hexDigits_range in H. destruct H as (E & Hr & Hg & Hb).
  rewrite E in Hlen. split; [exact Hlen|]. repeat split; lia.
Qed.

End Platform.

End Processor.

(** ** The generative service (services/geminiService) *)

Module Service.

(** [try { body } catch (error) { handler }] *)
Definition tryCatch {A : Type} (body : Result A) (handler : Error -> Result A) : Result A :=
  match body with
  | Ok a => Ok a
  | Throw error => handler error
  end.

(** White space and line terminators, as far as ASCII has them. *)
Definition isSpace (ch : ascii) : bool :=
  let n := nat_of_ascii ch in
  ((9 <=? n) && (n <=? 13) || (n =? 32))%nat.

Fixpoint trimStart (s : string) : string :=
  match s with
  | String ch rest => if isSpace ch then trimStart rest else s
  | EmptyString => EmptyString
  end.

Fixpoint trimEnd (s : string) : string :=
  match s with
  | String ch rest =>
      match trimEnd rest with
      | EmptyString => if isSpace ch then EmptyString else String ch EmptyString
      | kept => String ch kept
      end
  | EmptyString => EmptyString
  end.

(** [s.trim()] *)
Definition trim (s : string) : string := trimEnd (trimStart s).

(** [inlineData] of a part. *)
Record InlineData := mkInlineData { data : string; mimeType : string }.

Fixpoint untilComma (s : string) : string :=
  match s with
  | String "," _ => EmptyString
  | String ch rest => String ch (untilComma rest)
  | EmptyString => EmptyString
  end.

(** [base64.split(',')[1]]: [None] for [undefined]. *)
Fixpoint secondField (s : string) : option string :=
  match s with
  | String "," rest => Some (untilComma rest)
  | String _ rest => secondField rest
  | EmptyString => None
  end.

Definition fileToGenerativePart (base64 mimeType : string) : option string * string :=
  (secondField base64, mimeType).

Inductive AspectRatio := ratio_1_1 | ratio_3_4 | ratio_4_3 | ratio_9_16 | ratio_16_9.

Definition ratioText (aspectRatio : AspectRatio) : string :=
  match aspectRatio with
  | ratio_1_1 => "1:1"
  | ratio_3_4 => "3:4"
  | ratio_4_3 => "4:3"
  | ratio_9_16 => "9:16"
  | ratio_16_9 => "16:9"
  end.

(** The [contents] of the request of [enhancePrompt]. *)
Definition enhanceRequest (prompt : string) : string :=
  ("Enhance this user's prompt for an AI image generator to be more descriptive, vivid, and detailed. Return only the enhanced prompt. Original prompt: "
   ++ String (ascii_of_nat 34) prompt ++ String (ascii_of_nat 34) EmptyString)%string.

(** The text part of the request of [generateImage] with a reference image. *)
Definition referenceRequest (aspectRatio : AspectRatio) (prompt : string) : string :=
  ("Generate an image inspired by the reference image, matching this prompt. The final image should have an aspect ratio of "
   ++ ratioText aspectRatio ++ ". Prompt: " ++ prompt)%string.

Section Api.

(** The vendor SDK.  [generateContent] is the text request of
    [enhancePrompt] and answers [response.text] ([None] for [undefined]);
    [generateContentParts] is the request with a reference image and answers
    the parts of each candidate, each part with its [inlineData] if it has
    one; [generateImages] answers the [imageBytes] of the generated images
    ([None] when [generatedImages] is missing). *)
Variable generateContent : string -> Result (option string).
Variable generateContentParts :
  string -> option string * string -> Result (list (list (option InlineData))).
Variable generateImages : string -> AspectRatio -> Result (option (list string)).

Definition enhancePrompt (prompt : string) : Result string :=
  tryCatch
    (let* response := generateContent (enhanceRequest prompt) in
     match response with
     | Some text => Ok (trim text)
     | None => Throw TypeError
     end)
    (fun error => Ok prompt).   (* Fallback to original prompt on error *)

(** The first part with [inlineData], as the [for] loop finds it. *)
Fixpoint firstInline (parts : list (option InlineData)) : option InlineData :=
  match parts with
  | Some inline :: _ => Some inline
  | None :: rest => firstInline rest
  | [] => None
  end.

Definition generateImage (prompt : string) (aspectRatio : AspectRatio)
    (referenceImage : option (string * string)) : Result string :=
  tryCatch
    (match referenceImage with
     | Some (base64, referenceMimeType) =>
         let imagePart := fileToGenerativePart base64 referenceMimeType in
         let textPart := referenceRequest aspectRatio prompt in
         let* candidates := generateContentParts textPart imagePart in
         let* parts :=
           match candidates with
           | parts :: _ => Ok parts
           | [] => Throw TypeError
           end in
         match firstInline parts with
         | Some inline =>
             Ok ("data:" ++ mimeType inline ++ ";base64," ++ data inline)%string
         | None =>
             Throw (ApiError "Image generation with reference failed: No image part in response.")
         end
     | None =>
         let* response := generateImages prompt aspectRatio in
         match response with
         | Some (imageBytes :: _) => Ok ("data:image/png;base64," ++ imageBytes)%string
         | _ => Throw (ApiError "No image generated.")
         end
     end)
    (fun error => Throw error).

End Api.

End Service.

(** ** A platform to run the processor on

    A small instance of the platform: a lossless text codec in place of
    PNG, a compositor that shows the topmost paint without resampling, a
    context that is always available and a colour parser that accepts
    every string. *)

Module Sample.

Fixpoint ones (n : nat) : string :=
  match n with
  | O => EmptyString
  | S n => String "1" (ones n)
  end.

(** A sign, the magnitude in unary, and a closing "0". *)
Definition writeZ (z : Z) : string :=
  String (if (z <? 0)%Z then "-" else "+")%char (ones (Z.abs_nat z) ++ "0").

Fixpoint writeZs (l : list Z) : string :=
  match l with
  | [] => EmptyString
  | z :: l => (writeZ z ++ writeZs l)%string
  end.

Definition signed (negative : bool) (n : nat) : Z :=
  if negative then (- Z.of_nat n)%Z else Z.of_nat n.

(** [current] is the number being read, if any: its sign and the ones so far. *)
Fixpoint readZs (s : string) (current : option (bool * nat)) : option (list Z) :=
  match s, current with
  | EmptyString, None => Some []
  | EmptyString, Some _ => None
  | String "+" rest, None => readZs rest (Some (false, O))
  | String "-" rest, None => readZs rest (Some (true, O))
  | String _ _, None => None
  | String "1" rest, Some (negative, n) => readZs rest (Some (negative, S n))
  | String "0" rest, Some (negative, n) =>
      option_map (cons (signed negative n)) (readZs rest None)
  | String _ _, Some _ => None
  end.

Definition encode (img : Bitmap.Image) : string :=
  writeZs (Bitmap.width img :: Bitmap.height img :: Bitmap.data img).

Definition decode (s : string) : option Bitmap.Image :=
  match readZs s None with
  | Some (w :: h :: data) => Some (Bitmap.mkImage w h data)
  | _ => None
  end.

Definition composite (paints : list Canvas.Paint) : Bitmap.Pixel :=
  match paints with
  | [] => Bitmap.transparent
  | Canvas.PaintImage img u v :: _ => Bitmap.pixel img (Qfloor u) (Qfloor v)
  | Canvas.PaintFill _ :: _ => Bitmap.mkPixel 0 0 0 255
  end.

Definition getContext2d (c : Canvas.Canvas) : bool := true.

Definition cssColor (s : string) : bool := true.

(** A red pixel beside a fully transparent one. *)
Definition photo : Bitmap.Image := Bitmap.mkImage 2 1 [255; 0; 0; 255; 0; 0; 255; 0]%Z.

(** A single opaque white pixel. *)
Definition dot : Bitmap.Image := Bitmap.mkImage 1 1 [255; 255; 255; 255]%Z.

(** A fully transparent pixel. *)
Definition blank : Bitmap.Image := Bitmap.mkImage 1 1 [0; 0; 0; 0]%Z.

(** Three opaque pixels in a row: red, green, blue. *)
Definition strip : Bitmap.Image :=
  Bitmap.mkImage 3 1 [255; 0; 0; 255; 0; 255; 0; 255; 0; 0; 255; 255]%Z.

(** A string that decodes to no image. *)
Definition broken : string := "broken".

Lemma readZs_ones (n m : nat) (negative : bool) (rest : string) :
  readZs (ones n ++ String "0" rest) (Some (negative, m))
  = option_map (cons (signed negative (m + n))) (readZs rest None).
Proof.
  revert m. induction n as [|n IH]; intros m; cbn [ones String.append readZs].
  - now rewrite Nat.add_0_r.
  - rewrite IH. now rewrite Nat.add_succ_r.
Qed.

Lemma append_assoc (s1 s2 s3 : string) : ((s1 ++ s2) ++ s3 = s1 ++ (s2 ++ s3))%string.
Proof.
  induction s1 as [|ch s1 IH]; cbn [String.append]; [reflexivity | now rewrite IH].
Qed.

Lemma readZs_writeZs (l : list Z) : readZs (writeZs l) None = Some l.
Proof.
  induction l as [|z l IH]; cbn [writeZs]; [reflexivity|].
  unfold writeZ. cbn [String.append]. rewrite append_assoc. cbn [String.append].
  destruct (z <? 0)%Z eqn:E; cbn [readZs]; rewrite readZs_ones, IH; cbn [option_map];
    unfold signed; do 2 f_equal.
  - apply Z.ltb_lt in E. lia.
  - apply Z.ltb_ge in E. lia.
Qed.

Lemma decode_encode (img : Bitmap.Image) : decode (encode img) = Some img.
Proof.
  unfold decode, encode. rewrite readZs_writeZs. now destruct img.
Qed.

Lemma Qfloor_centre (q : Q) (n : Z) : q == inject_Z n + (1#2) -> Qfloor q = n.
Proof.
  intros E. pose proof (Qfloor_le q) as Hlo. pose proof (Qlt_floor q) as Hhi.
  rewrite inject_Z_plus in Hhi. change (inject_Z 1) with 1 in Hhi.
  assert (H1 : (Qfloor q < n + 1)%Z).
  { rewrite Zlt_Qlt, inject_Z_plus. change (inject_Z 1) with 1. lra. }
  assert (H2 : (n < Qfloor q + 1)%Z).
  { rewrite Zlt_Qlt, inject_Z_plus. change (inject_Z 1) with 1. lra. }
  lia.
Qed.

Lemma composite_lossless : Canvas.lossless composite.
Proof.
  split; [reflexivity|].
  intros img px py u v Hu Hv. cbn [composite].
  now rewrite (Qfloor_centre u px Hu), (Qfloor_centre v py Hv).
Qed.

End Sample.

(** ** Failure handling across the service and the processor *)

Module Handling.


End Handling.

(** ** The statements at concrete inputs *)

Module Examples.

Definition grid : Processor.GridState := [[Some (Sample.encode Sample.photo); None]].

Lemma context_available : forall c, Sample.getContext2d c = true.
Proof. reflexivity. Qed.

Lemma codec_lossless : forall i, Bitmap.valid i -> Sample.decode (Sample.encode i) = Some i.
Proof. intros i _. apply Sample.decode_encode. Qed.

Lemma photo_valid : Bitmap.valid Sample.photo.
Proof. unfold Bitmap.valid; cbn; lia. Qed.

Lemma blank_valid : Bitmap.valid Sample.blank.
Proof. unfold Bitmap.valid; cbn; lia. Qed.

(** A 1 x 2 grid with one image, mixed into 100 x 60 pixels with padding 10. *)
Lemma mixImages_grid_witness :
  Processor.Grid 1 2 grid /\
  exists canvas,
    Processor.mixImages Sample.decode Sample.encode Sample.composite
      Sample.getContext2d Sample.cssColor grid 2 1 100 60 10 "#111827"
    = Ok (Processor.toDataURL Sample.encode Sample.composite canvas) /\
    Canvas.width canvas = 100%Z /\ Canvas.height canvas = 60%Z.
Proof.
  assert (Hgrid : Processor.Grid 1 2 grid).
  { split; [reflexivity|]. repeat constructor. }
  split; [exact Hgrid|].
  destruct (Processor.mixImages_grid Sample.decode Sample.encode Sample.composite
              Sample.getContext2d Sample.cssColor grid 2 1 100 60 10 "#111827"
              context_available eq_refl Hgrid ltac:(lia) ltac:(lia))
    as (canvas & Hmix & Hw & Hh & _).
  exists canvas. repeat split; assumption.
Defined.

(** A 10 x 10 target with padding 20. *)
Lemma mixImages_padding_too_large_witness :
  exists canvas,
    Processor.mixImages Sample.decode Sample.encode Sample.composite
      Sample.getContext2d Sample.cssColor grid 2 1 10 10 20 "#111827"
    = Ok (Processor.toDataURL Sample.encode Sample.composite canvas) /\
    Canvas.layers canvas = [Canvas.FillRect "#111827" Canvas.identity 0 0 10 10].
Proof.
  destruct (Processor.mixImages_padding_too_large Sample.decode Sample.encode
              Sample.composite Sample.getContext2d Sample.cssColor grid 2 1 10 10 20
              "#111827" context_available eq_refl ltac:(lia) ltac:(lia))
    as (canvas & Hmix & _ & _ & Hlayers & _).
  - left. vm_compute. discriminate.
  - exists canvas. split; assumption.
Defined.




(** [photo] (2 x 1) fitted to the ratio 1. *)
Lemma letterboxImage_bounded_witness :
  exists canvas,
    Processor.letterboxImage Sample.decode Sample.encode Sample.composite
      Sample.getContext2d Sample.cssColor (Sample.encode Sample.photo) 1 None
    = Ok (Processor.toDataURL Sample.encode Sample.composite canvas) /\
    (Canvas.width canvas <= 1500)%Z /\ (Canvas.height canvas <= 1500)%Z.
Proof.
  destruct (Processor.letterboxImage_bounded Sample.decode Sample.encode Sample.composite
              Sample.getContext2d Sample.cssColor (Sample.encode Sample.photo)
              Sample.photo 1 None context_available
              (Sample.decode_encode Sample.photo) eq_refl eq_refl eq_refl)
    as (canvas & cw & ch & dx & dy & Hbox & Hw & Hh & _).
  exists canvas. repeat split; assumption.
Defined.




End Examples.

(** ** The grid of the application (App) *)

Module App.

(** [arr[i] = v]: an index past the end extends the array; the holes left
    in between read [undefined], kept here as empty cells. *)
Fixpoint assign (row : list (option string)) (i : nat) (v : option string)
    : list (option string) :=
  match i, row with
  | O, [] => [v]
  | O, _ :: rest => v :: rest
  | S i, [] => None :: assign [] i v
  | S i, cell :: rest => cell :: assign rest i v
  end.

(** [grid[r][c] = v]: an assignment into a row that does not exist throws. *)
Fixpoint assignCell (grid : Processor.GridState) (r c : nat) (v : option string)
    : Result Processor.GridState :=
  match r, grid with
  | _, [] => Throw TypeError
  | O, row :: rest => Ok (assign row c v :: rest)
  | S r, row :: rest =>
      let* rest' := assignCell rest r c v in Ok (row :: rest')
  end.

(** [grid[r][c]]: reading in a row that does not exist throws; a read past
    the end of a row answers [undefined], kept here as an empty cell (it
    does not happen on a grid whose rows all have [cols] cells). *)
Definition readCell (grid : Processor.GridState) (r c : nat) : Result (option string) :=
  match nth_error grid r with
  | None => Throw TypeError
  | Some row => Ok (nth c row None)
  end.

(** [Array.from({ length: rows }, () => Array.from({ length: cols }, () => null))] *)
Definition createEmptyGrid (rows cols : nat) : Processor.GridState :=
  repeat (repeat None cols) rows.

Record State := mkState {
  rows : nat;
  cols : nat;
  gridImages : Processor.GridState;
  collection : list string;
  mixedImage : option string
}.

(** The two nested copy loops of [handleRowsChange] and [handleColsChange]. *)
Definition copyCells (gridImages : Processor.GridState) (rowCount colCount : nat)
    (newGrid : Processor.GridState) : Result Processor.GridState :=
  Processor.forEach (seq 0 rowCount)
    (fun r newGrid =>
       Processor.forEach (seq 0 colCount)
         (fun c newGrid =>
            let* cell := readCell gridImages r c in
            assignCell newGrid r c cell)
         newGrid)
    newGrid.

(** [handleRowsChange]; [newRows] is [None] for [NaN]. *)
Definition handleRowsChange (newRows : option Z) (st : State) : Result State :=
  match newRows with
  | None => Ok st
  | Some newRows =>
      if (newRows <? 1)%Z then Ok st
      else
        let newRows := Z.to_nat newRows in
        let newGrid := createEmptyGrid newRows (cols st) in
        let* newGrid :=
          copyCells (gridImages st) (Nat.min (rows st) newRows) (cols st) newGrid in
        Ok (mkState newRows (cols st) newGrid (collection st) None)
  end.

(** [handleColsChange]; [newCols] is [None] for [NaN]. *)
Definition handleColsChange (newCols : option Z) (st : State) : Result State :=
  match newCols with
  | None => Ok st
  | Some newCols =>
      if (newCols <? 1)%Z then Ok st
      else
        let newCols := Z.to_nat newCols in
        let newGrid := createEmptyGrid (rows st) newCols in
        let* newGrid :=
          copyCells (gridImages st) (rows st) (Nat.min (cols st) newCols) newGrid in
        Ok (mkState (rows st) newCols newGrid (collection st) None)
  end.

(** [cellAspectRatio] *)
Definition cellAspectRatio (cols rows : nat) (finalWidth finalHeight padding : Q) : Q :=
  let totalPaddingX := padding * (inject_Z (Z.of_nat cols) + 1) in
  let totalPaddingY := padding * (inject_Z (Z.of_nat rows) + 1) in
  let contentWidth := finalWidth - totalPaddingX in
  let contentHeight := finalHeight - totalPaddingY in
  if JS.leb contentWidth 0 || JS.leb contentHeight 0 then 1
  else
    let cellWidth := contentWidth / inject_Z (Z.of_nat cols) in
    let cellHeight := contentHeight / inject_Z (Z.of_nat rows) in
    cellWidth / cellHeight.

(** [arr.map((x, i) => ...)]: the elements with their indices. *)
Definition indexed {A : Type} (l : list A) : list (nat * A) :=
  combine (seq 0 (List.length l)) l.

(** The [emptyCells] of [handleBulkImagesSelected]: the positions that hold
    [null], rows first. *)
Definition emptyCells (grid : Processor.GridState) : list (nat * nat) :=
  flat_map
    (fun '(r, row) =>
       flat_map (fun '(c, cell) => match cell with None => [(r, c)] | Some _ => [] end)
                (indexed row))
    (indexed grid).

(** [collection.includes(url)] *)
Definition includes (collection : list string) (url : string) : bool :=
  existsb (String.eqb url) collection.

Section Bulk.

Variable letterboxImage : string -> Q -> option string -> Result string.

(** One turn of the loop of [handleBulkImagesSelected]: whatever is thrown
    inside the [try] is logged, and the loop goes on. *)
Definition placeImage (cellAspectRatio : Q)
    (state : Processor.GridState * list string) (item : string * (nat * nat))
    : Processor.GridState * list string :=
  let '(newGrid, newCollection) := state in
  let '(dataUrl, (row, col)) := item in
  match letterboxImage dataUrl cellAspectRatio (Some "#FFFFFF"%string) with
  | Ok finalImage =>
      match assignCell newGrid row col (Some finalImage) with
      | Ok newGrid =>
          (newGrid,
           if includes newCollection finalImage then newCollection
           else newCollection ++ [finalImage])
      | Throw _ => state
      end
  | Throw _ => state
  end.

(** [handleBulkImagesSelected]: the i-th data URL goes with the i-th empty
    cell, for as many as there are of both. *)
Definition handleBulkImagesSelected (cellAspectRatio : Q) (dataUrls : list string)
    (st : State) : State :=
  let newGrid := gridImages st in
  let emptyCells := emptyCells newGrid in
  match emptyCells with
  | [] => st
  | _ =>
      let '(newGrid, newCollection) :=
        fold_left (placeImage cellAspectRatio) (combine dataUrls emptyCells)
                  (newGrid, collection st) in
      mkState (rows st) (cols st) newGrid newCollection (mixedImage st)
  end.

End Bulk.

(** *** Facts about the grid *)

(** The cell at [(r,c)], if the grid has one there. *)
Definition cellOf (grid : Processor.GridState) (r c : nat) : option (option string) :=
  match nth_error grid r with
  | Some row => nth_error row c
  | None => None
  end.

Lemma assign_length (row : list (option string)) (c : nat) (v : option string) :
  (c < List.length row)%nat -> List.length (assign row c v) = List.length row.
Proof.
  revert c. induction row as [|cell row IH]; intros c Hc; [inversion Hc|].
  destruct c as [|c]; cbn [assign List.length]; [reflexivity|].
  f_equal. apply IH. cbn in Hc. lia.
Qed.

Lemma assign_nth_error (row : list (option string)) (c c' : nat) (v : option string) :
  (c < List.length row)%nat ->
  nth_error (assign row c v) c' = if (c' =? c)%nat then Some v else nth_error row c'.
Proof.
  revert c c'. induction row as [|cell row IH]; intros c c' Hc; [inversion Hc|].
  destruct c as [|c], c' as [|c']; cbn [assign nth_error Nat.eqb]; try reflexivity.
  apply IH. cbn in Hc. lia.
Qed.

Lemma assignCell_cell (rows cols : nat) (grid : Processor.GridState) (r c : nat)
    (v : option string) :
  Processor.Grid rows cols grid -> (r < rows)%nat -> (c < cols)%nat ->
  exists grid',
    assignCell grid r c v = Ok grid' /\
    Processor.Grid rows cols grid' /\
    forall r' c',
      cellOf grid' r' c'
      = if ((r' =? r) && (c' =? c))%nat then Some v else cellOf grid r' c'.
Proof.
  revert rows r. induction grid as [|row grid IH]; intros rows r [Hlen Hrows] Hr Hc.
  - cbn in Hlen. lia.
  - inversion Hrows as [|? ? Hrow Hrest]; subst.
    destruct r as [|r]; cbn [assignCell].
    + eexists. split; [reflexivity|]. split.
      * split; [reflexivity|]. constructor; [|exact Hrest].
        rewrite assign_length; lia.
      * intros [|r'] c'; unfold cellOf; cbn [nth_error Nat.eqb andb]; [|reflexivity].
        apply assign_nth_error. lia.
    + destruct (IH (List.length grid) r) as (grid' & -> & [Hlen' Hrows'] & Hcells);
        [now split | cbn in Hr; lia | exact Hc |].
      cbn [bind]. eexists. split; [reflexivity|]. split.
      * split; [cbn [List.length]; now rewrite Hlen'|]. now constructor.
      * intros [|r'] c'; unfold cellOf; cbn [nth_error Nat.eqb andb]; [reflexivity|].
        apply Hcells.
Qed.

Lemma readCell_cell (rows cols : nat) (grid : Processor.GridState) (r c : nat) :
  Processor.Grid rows cols grid -> (r < rows)%nat -> (c < cols)%nat ->
  exists cell, readCell grid r c = Ok cell /\ cellOf grid r c = Some cell.
Proof.
  intros [Hlen Hrows] Hr Hc. unfold readCell, cellOf.
  destruct (nth_error grid r) as [row|] eqn:E.
  - assert (Hrow : List.length row = cols).
    { rewrite Forall_forall in Hrows. apply Hrows. eapply nth_error_In, E. }
    exists (nth c row None). split; [reflexivity|].
    apply nth_error_nth'. lia.
  - apply nth_error_None in E. lia.
Qed.

Lemma createEmptyGrid_Grid (rows cols : nat) :
  Processor.Grid rows cols (createEmptyGrid rows cols).
Proof.
  unfold createEmptyGrid. split; [apply repeat_length|].
  apply Forall_forall. intros row Hrow. apply repeat_spec in Hrow. subst.
  apply repeat_length.
Qed.

Lemma createEmptyGrid_cell (rows cols r c : nat) :
  (r < rows)%nat -> (c < cols)%nat ->
  cellOf (createEmptyGrid rows cols) r c = Some None.
Proof.
  intros Hr Hc. unfold cellOf, createEmptyGrid.
  rewrite nth_error_repeat by exact Hr. now apply nth_error_repeat.
Qed.

(** A loop over [0 .. n-1] whose turns keep an invariant ends with it. *)
Lemma forEach_invariant {S : Type} (I : nat -> S -> Prop) (body : nat -> S -> Result S)
    (n : nat) (s : S) :
  I O s ->
  (forall i s, (i < n)%nat -> I i s -> exists s', body i s = Ok s' /\ I (Datatypes.S i) s') ->
  exists s', Processor.forEach (seq 0 n) body s = Ok s' /\ I n s'.
Proof.
  intros H0 Hstep. induction n as [|n IH].
  - exists s. now split.
  - destruct IH as (s1 & E1 & H1); [intros; apply Hstep; [lia | assumption]|].
    rewrite seq_S, Processor.forEach_app, E1. cbn [bind plus Processor.forEach].
    destruct (Hstep n s1 ltac:(lia) H1) as (s2 & E2 & H2).
    rewrite E2. cbn [bind]. eauto.
Qed.

(** What the copy loops leave: the cells of the first [rowCount] rows and
    [colCount] columns are those of the old grid, the others those of the
    new one. *)
Lemma copyCells_cells (gridImages newGrid : Processor.GridState)
    (rows cols newRows newCols rowCount colCount : nat) :
  Processor.Grid rows cols gridImages -> Processor.Grid newRows newCols newGrid ->
  (rowCount <= rows)%nat -> (rowCount <= newRows)%nat ->
  (colCount <= cols)%nat -> (colCount <= newCols)%nat ->
  exists grid',
    copyCells gridImages rowCount colCount newGrid = Ok grid' /\
    Processor.Grid newRows newCols grid' /\
    forall r c,
      cellOf grid' r c
      = if ((r <? rowCount) && (c <? colCount))%nat
        then cellOf gridImages r c else cellOf newGrid r c.
Proof.
  intros Hold Hnew HR HR' HC HC'. unfold copyCells.
  apply (forEach_invariant
           (fun k grid' =>
              Processor.Grid newRows newCols grid' /\
              forall r c,
                cellOf grid' r c
                = if ((r <? k) && (c <? colCount))%nat
                  then cellOf gridImages r c else cellOf newGrid r c)).
  - split; [exact Hnew|]. intros r c. reflexivity.
  - intros k grid1 Hk [Hgrid1 Hcells1].
    destruct (forEach_invariant
                (fun j grid' =>
                   Processor.Grid newRows newCols grid' /\
                   forall r c,
                     cellOf grid' r c
                     = if (((r <? k) && (c <? colCount)) || ((r =? k) && (c <? j)))%nat
                       then cellOf gridImages r c else cellOf newGrid r c)
                (fun c newGrid =>
                   let* cell := readCell gridImages k c in assignCell newGrid k c cell)
                colCount grid1)
      as (grid2 & E2 & Hgrid2 & Hcells2).
    + split; [exact Hgrid1|]. intros r c. rewrite Hcells1.
      replace (c <? 0)%nat with false by reflexivity.
      now rewrite andb_false_r, orb_false_r.
    + intros j grid' Hj [Hgrid' Hcells'].
      destruct (readCell_cell rows cols gridImages k j Hold ltac:(lia) ltac:(lia))
        as (cell & -> & Hcell).
      cbn [bind].
      destruct (assignCell_cell newRows newCols grid' k j cell Hgrid' ltac:(lia) ltac:(lia))
        as (grid'' & -> & Hgrid'' & Hcells'').
      eexists. split; [reflexivity|]. split; [exact Hgrid''|].
      intros r c. rewrite Hcells'', Hcells'.
      destruct (Nat.eqb_spec r k) as [Er|Er], (Nat.eqb_spec c j) as [Ec|Ec];
        cbn [andb orb]; subst.
      * replace (k <? k)%nat with false by (symmetry; apply Nat.ltb_ge; lia).
        replace (j <? Datatypes.S j)%nat with true by (symmetry; apply Nat.ltb_lt; lia).
        cbn [andb orb]. now rewrite Hcell.
      * replace (c <? Datatypes.S j)%nat with (c <? j)%nat; [reflexivity|].
        destruct (c <? j)%nat eqn:E1; symmetry;
          [apply Nat.ltb_lt in E1; apply Nat.ltb_lt
          |apply Nat.ltb_ge in E1; apply Nat.ltb_ge]; lia.
      * now rewrite !orb_false_r.
      * now rewrite !orb_false_r.
    + exists grid2. split; [exact E2|]. split; [exact Hgrid2|].
      intros r c. rewrite Hcells2.
      destruct (Nat.eqb_spec r k) as [Er|Er]; cbn [andb orb].
      * subst.
        replace (k <? k)%nat with false by (symmetry; apply Nat.ltb_ge; lia).
        replace (k <? Datatypes.S k)%nat with true by (symmetry; apply Nat.ltb_lt; lia).
        reflexivity.
      * rewrite orb_false_r.
        replace (r <? Datatypes.S k)%nat with (r <? k)%nat; [reflexivity|].
        destruct (r <? k)%nat eqn:E1; symmetry;
          [apply Nat.ltb_lt in E1; apply Nat.ltb_lt
          |apply Nat.ltb_ge in E1; apply Nat.ltb_ge]; lia.
Qed.

(** Changing the number of rows to [newRows >= 1] keeps the grid
    rectangular, keeps every cell of the rows that remain, leaves the rows
    that are added empty, and discards the mixed image. *)
Theorem handleRowsChange_keeps (newRows : Z) (st : State) :
  Processor.Grid (rows st) (cols st) (gridImages st) -> (1 <= newRows)%Z ->
  exists st',
    handleRowsChange (Some newRows) st = Ok st' /\
    rows st' = Z.to_nat newRows /\ cols st' = cols st /\
    Processor.Grid (rows st') (cols st') (gridImages st') /\
    collection st' = collection st /\ mixedImage st' = None /\
    forall r c, (r < rows st')%nat -> (c < cols st)%nat ->
      cellOf (gridImages st') r c
      = if (r <? rows st)%nat then cellOf (gridImages st) r c else Some None.
Proof.
  intros Hgrid Hnew. unfold handleRowsChange.
  replace (newRows <? 1)%Z with false by (symmetry; apply Z.ltb_ge; lia).
  destruct (copyCells_cells (gridImages st)
              (createEmptyGrid (Z.to_nat newRows) (cols st))
              (rows st) (cols st) (Z.to_nat newRows) (cols st)
              (Nat.min (rows st) (Z.to_nat newRows)) (cols st)
              Hgrid (createEmptyGrid_Grid _ _))
    as (grid' & -> & Hgrid' & Hcells); try lia.
  cbn [bind]. eexists. split; [reflexivity|].
  cbn [rows cols gridImages collection mixedImage].
  repeat split; try apply Hgrid'.
  intros r c Hr Hc. rewrite Hcells.
  replace (c <? cols st)%nat with true by (symmetry; apply Nat.ltb_lt; lia).
  rewrite andb_true_r.
  destruct (r <? rows st)%nat eqn:E.
  - replace (r <? Nat.min (rows st) (Z.to_nat newRows))%nat with true; [reflexivity|].
    symmetry. apply Nat.ltb_lt. apply Nat.ltb_lt in E. lia.
  - replace (r <? Nat.min (rows st) (Z.to_nat newRows))%nat with false.
    + now apply createEmptyGrid_cell.
    + symmetry. apply Nat.ltb_ge. apply Nat.ltb_ge in E. lia.
Qed.

(** Changing the number of columns to [newCols >= 1] keeps the grid
    rectangular, keeps every cell of the columns that remain, leaves the
    columns that are added empty, and discards the mixed image. *)
Theorem handleColsChange_keeps (newCols : Z) (st : State) :
  Processor.Grid (rows st) (cols st) (gridImages st) -> (1 <= newCols)%Z ->
  exists st',
    handleColsChange (Some newCols) st = Ok st' /\
    rows st' = rows st /\ cols st' = Z.to_nat newCols /\
    Processor.Grid (rows st') (cols st') (gridImages st') /\
    collection st' = collection st /\ mixedImage st' = None /\
    forall r c, (r < rows st)%nat -> (c < cols st')%nat ->
      cellOf (gridImages st') r c
      = if (c <? cols st)%nat then cellOf (gridImages st) r c else Some None.
Proof.
  intros Hgrid Hnew. unfold handleColsChange.
  replace (newCols <? 1)%Z with false by (symmetry; apply Z.ltb_ge; lia).
  destruct (copyCells_cells (gridImages st)
              (createEmptyGrid (rows st) (Z.to_nat newCols))
              (rows st) (cols st) (rows st) (Z.to_nat newCols)
              (rows st) (Nat.min (cols st) (Z.to_nat newCols))
              Hgrid (createEmptyGrid_Grid _ _))
    as (grid' & -> & Hgrid' & Hcells); try lia.
  cbn [bind]. eexists. split; [reflexivity|].
  cbn [rows cols gridImages collection mixedImage].
  repeat split; try apply Hgrid'.
  intros r c Hr Hc. rewrite Hcells.
  replace (r <? rows st)%nat with true by (symmetry; apply Nat.ltb_lt; lia).
  cbn [andb].
  destruct (c <? cols st)%nat eqn:E.
  - replace (c <? Nat.min (cols st) (Z.to_nat newCols))%nat with true; [reflexivity|].
    symmetry. apply Nat.ltb_lt. apply Nat.ltb_lt in E. lia.
  - replace (c <? Nat.min (cols st) (Z.to_nat newCols))%nat with false.
    + now apply createEmptyGrid_cell.
    + symmetry. apply Nat.ltb_ge. apply Nat.ltb_ge in E. lia.
Qed.

(** The aspect ratio handed to [letterboxImage] for the cells is positive
    whatever the settings, when the grid has at least one row and column. *)
Theorem cellAspectRatio_positive (cols rows : nat) (finalWidth finalHeight padding : Q) :
  (1 <= cols)%nat -> (1 <= rows)%nat ->
  0 < cellAspectRatio cols rows finalWidth finalHeight padding.
Proof.
  intros Hcols Hrows. unfold cellAspectRatio. cbv zeta.
  destruct (JS.leb _ 0 || JS.leb _ 0) eqn:E; [reflexivity|].
  apply orb_false_iff in E as [EW EH]. apply JS.leb_gt in EW, EH.
  pose proof (Processor.inject_nat_succ_le 0 cols ltac:(lia)) as HC.
  pose proof (Processor.inject_nat_succ_le 0 rows ltac:(lia)) as HR.
  change (inject_Z (Z.of_nat 0)) with 0 in HC, HR.
  apply Qlt_shift_div_l; [apply Qlt_shift_div_l; lra|].
  rewrite Qmult_0_l. apply Qlt_shift_div_l; lra.
Qed.

Lemma cellOf_range (rows cols : nat) (grid : Processor.GridState) (r c : nat)
    (cell : option string) :
  Processor.Grid rows cols grid -> cellOf grid r c = Some cell ->
  (r < rows)%nat /\ (c < cols)%nat.
Proof.
  intros [Hlen Hrows] Hcell. unfold cellOf in Hcell.
  destruct (nth_error grid r) as [row|] eqn:E; [|discriminate].
  assert (Hrow : List.length row = cols).
  { rewrite Forall_forall in Hrows. apply Hrows. eapply nth_error_In, E. }
  split.
  - rewrite <- Hlen. apply nth_error_Some. congruence.
  - rewrite <- Hrow. apply nth_error_Some. congruence.
Qed.

Lemma indexed_from_In {A : Type} (l : list A) (s i : nat) (a : A) :
  In (i, a) (combine (seq s (List.length l)) l) ->
  (s <= i)%nat /\ nth_error l (i - s) = Some a.
Proof.
  revert s. induction l as [|x l IH]; intros s Hin; [destruct Hin|].
  cbn [List.length seq combine] in Hin. destruct Hin as [E|Hin].
  - injection E as <- <-. split; [lia|]. now rewrite Nat.sub_diag.
  - apply IH in Hin as [Hle Hnth]. split; [lia|].
    replace (i - s)%nat with (S (i - S s)) by lia. exact Hnth.
Qed.

Lemma indexed_In {A : Type} (l : list A) (i : nat) (a : A) :
  In (i, a) (indexed l) -> nth_error l i = Some a.
Proof.
  intros Hin. apply indexed_from_In in Hin as [_ Hnth].
  now rewrite Nat.sub_0_r in Hnth.
Qed.

Lemma emptyCells_In (grid : Processor.GridState) (r c : nat) :
  In (r, c) (emptyCells grid) -> cellOf grid r c = Some None.
Proof.
  unfold emptyCells. intros Hin.
  apply in_flat_map in Hin as ([r' row] & Hrow & Hin).
  apply in_flat_map in Hin as ([c' cell] & Hcell & Hin).
  destruct cell as [url|]; [destruct Hin|].
  destruct Hin as [E|[]]. injection E as <- <-.
  apply indexed_In in Hrow, Hcell. unfold cellOf. now rewrite Hrow.
Qed.

Lemma includes_In (collection : list string) (url : string) :
  includes collection url = true <-> In url collection.
Proof.
  unfold includes. rewrite existsb_exists. split.
  - intros (x & Hin & E). apply String.eqb_eq in E. now subst.
  - intros Hin. exists url. split; [exact Hin | apply String.eqb_refl].
Qed.

Section BulkFacts.

Variable letterboxImage : string -> Q -> option string -> Result string.
Variable ratio : Q.
Variable dataUrls : list string.
Variable grid0 : Processor.GridState.
Variable collection0 : list string.
Variables rows0 cols0 : nat.

(** What holds of the grid and the collection all along the loop of
    [handleBulkImagesSelected]. *)
Definition filling (state : Processor.GridState * list string) : Prop :=
  let '(grid, collection) := state in
  Processor.Grid rows0 cols0 grid /\
  (forall r c,
     cellOf grid r c = cellOf grid0 r c \/
     (cellOf grid0 r c = Some None /\
      exists url finalImage,
        In url dataUrls /\
        letterboxImage url ratio (Some "#FFFFFF"%string) = Ok finalImage /\
        cellOf grid r c = Some (Some finalImage) /\ In finalImage collection)) /\
  (exists added, collection = collection0 ++ added) /\
  (NoDup collection0 -> NoDup collection).

Lemma placeImage_filling (state : Processor.GridState * list string)
    (url : string) (r c : nat) :
  Processor.Grid rows0 cols0 grid0 ->
  In url dataUrls -> cellOf grid0 r c = Some None ->
  filling state ->
  filling (placeImage letterboxImage ratio state (url, (r, c))).
Proof.
  intros Hgrid0 Hurl Hempty. destruct state as [grid collection].
  intros (Hgrid & Hcells & [added Hadded] & Hnodup).
  unfold placeImage.
  destruct (letterboxImage url ratio (Some "#FFFFFF"%string)) as [finalImage|e] eqn:El;
    [|split; [exact Hgrid|]; split; [exact Hcells|]; split; [now exists added|exact Hnodup]].
  destruct (cellOf_range _ _ _ _ _ _ Hgrid0 Hempty) as [Hr Hc].
  destruct (assignCell_cell rows0 cols0 grid r c (Some finalImage) Hgrid Hr Hc)
    as (grid' & -> & Hgrid' & Hcells').
  assert (Hgrows : forall v,
             In v collection ->
             In v (if includes collection finalImage then collection
                   else collection ++ [finalImage])).
  { intros v Hv. destruct (includes collection finalImage); [exact Hv|].
    apply in_or_app. now left. }
  assert (Hfinal : In finalImage
                     (if includes collection finalImage then collection
                      else collection ++ [finalImage])).
  { destruct (includes collection finalImage) eqn:E.
    - now apply includes_In.
    - apply in_or_app. right. now left. }
  split; [exact Hgrid'|]. split; [|split].
  - intros r' c'. rewrite Hcells'.
    destruct (Nat.eqb_spec r' r) as [Er|Er], (Nat.eqb_spec c' c) as [Ec|Ec];
      cbn [andb]; subst.
    + right. split; [exact Hempty|]. exists url, finalImage. now repeat split.
    + destruct (Hcells r c') as [Hsame|(H0 & u & v & Hu & Hl & Hv & Hin)];
        [now left|].
      right. split; [exact H0|]. exists u, v. repeat split; auto.
    + destruct (Hcells r' c) as [Hsame|(H0 & u & v & Hu & Hl & Hv & Hin)];
        [now left|].
      right. split; [exact H0|]. exists u, v. repeat split; auto.
    + destruct (Hcells r' c') as [Hsame|(H0 & u & v & Hu & Hl & Hv & Hin)];
        [now left|].
      right. split; [exact H0|]. exists u, v. repeat split; auto.
  - destruct (includes collection finalImage); [now exists added|].
    exists (added ++ [finalImage]). now rewrite Hadded, app_assoc.
  - intros H0. specialize (Hnodup H0).
    destruct (includes collection finalImage) eqn:E; [exact Hnodup|].
    apply NoDup_app; [exact Hnodup | repeat constructor; intros [] |].
    intros v Hv [<-|[]]. apply includes_In in Hv. congruence.
Qed.

Lemma fold_filling (items : list (string * (nat * nat)))
    (state : Processor.GridState * list string) :
  Processor.Grid rows0 cols0 grid0 ->
  (forall url r c, In (url, (r, c)) items ->
                   In url dataUrls /\ cellOf grid0 r c = Some None) ->
  filling state ->
  filling (fold_left (placeImage letterboxImage ratio) items state).
Proof.
  intros Hgrid0. revert state.
  induction items as [|[url [r c]] items IH]; intros state Hitems Hstate;
    [exact Hstate|].
  cbn [fold_left]. apply IH.
  - intros u r' c' Hin. apply Hitems. now right.
  - destruct (Hitems url r c (or_introl eq_refl)) as [Hurl Hempty].
    now apply placeImage_filling.
Qed.

End BulkFacts.

(** Selecting several images at once keeps the grid rectangular, never
    touches a cell that already holds an image, fills empty cells only
    with letterboxed versions (white background, the cells' aspect ratio)
    of the selected images, each of which is then in the collection; the
    collection only grows at its end, and stays free of duplicates if it
    was. *)
Theorem handleBulkImagesSelected_fills
    (letterboxImage : string -> Q -> option string -> Result string)
    (ratio : Q) (dataUrls : list string) (st : State) :
  Processor.Grid (rows st) (cols st) (gridImages st) ->
  let st' := handleBulkImagesSelected letterboxImage ratio dataUrls st in
  rows st' = rows st /\ cols st' = cols st /\ mixedImage st' = mixedImage st /\
  Processor.Grid (rows st') (cols st') (gridImages st') /\
  (forall r c url,
     cellOf (gridImages st) r c = Some (Some url) ->
     cellOf (gridImages st') r c = Some (Some url)) /\
  (forall r c finalImage,
     cellOf (gridImages st) r c = Some None ->
     cellOf (gridImages st') r c = Some (Some finalImage) ->
     In finalImage (collection st') /\
     exists url,
       In url dataUrls /\
       letterboxImage url ratio (Some "#FFFFFF"%string) = Ok finalImage) /\
  (exists added, collection st' = collection st ++ added) /\
  (NoDup (collection st) -> NoDup (collection st')).
Proof.
  intros Hgrid st'.
  assert (Hfill : filling letterboxImage ratio dataUrls (gridImages st) (collection st)
                    (rows st) (cols st) (gridImages st', collection st')).
  { subst st'. unfold handleBulkImagesSelected.
    destruct (emptyCells (gridImages st)) as [|cell cells] eqn:Ecells.
    - split; [exact Hgrid|]. split; [now left|]. split; [|auto].
      exists []. now rewrite app_nil_r.
    - rewrite <- Ecells.
      pose proof (fold_filling letterboxImage ratio dataUrls (gridImages st)
                    (collection st) (rows st) (cols st)
                    (combine dataUrls (emptyCells (gridImages st)))
                    (gridImages st, collection st) Hgrid) as Hfold.
      destruct (fold_left _ _ _) as [grid' collection'].
      cbn [gridImages collection]. apply Hfold.
      + intros url r c Hin. split; [eapply in_combine_l, Hin|].
        apply emptyCells_In. eapply in_combine_r, Hin.
      + split; [exact Hgrid|]. split; [now left|]. split; [|auto].
        exists []. now rewrite app_nil_r. }
  assert (Hsame : rows st' = rows st /\ cols st' = cols st
                  /\ mixedImage st' = mixedImage st).
  { subst st'. unfold handleBulkImagesSelected.
    destruct (emptyCells (gridImages st)); [now repeat split|].
    destruct (fold_left _ _ _). now repeat split. }
  destruct Hsame as (Hrows & Hcols & Hmixed).
  destruct Hfill as (Hgrid' & Hcells & Hadded & Hnodup).
  rewrite Hrows, Hcols. repeat split; try assumption; try apply Hgrid'.
  - intros r c url Hcell.
    destruct (Hcells r c) as [Hsame|(H0 & _)]; congruence.
  - destruct (Hcells r c) as [Hsame|(_ & u & v & Hu & Hl & Hv & Hin)]; congruence.
  - destruct (Hcells r c) as [Hsame|(_ & u & v & Hu & Hl & Hv & Hin)]; [congruence|].
    exists u. split; [exact Hu|]. congruence.
Qed.

End App.
